(** * md-click: a shallow embedding of [md_click/main.py]

    The program walks a click command hierarchy and writes one markdown
    file per command.  This development embeds its functions
    ([trim_empty_lines], [trim_docstring], [recursive_help],
    [format_option], [dump_helper], [dumps]) and proves what the
    specification says about them.

    Conventions of the embedding:
    - a Python [str] is a list of Unicode code points ([list N]);
    - a call that may raise returns a [result];
    - code with effects (standard output, the file system) is a function
      from a [World] to a result and a new [World];
    - the Python object graph of commands is a map from object identities
      to command records, so that a group that contains itself can be
      written down; the walker takes fuel, which bounds the depth of the
      recursion. *)

From Stdlib Require Import Ascii String.
From stdpp Require Import gmap list.

Set Default Proof Using "Type".
Set Warnings "-register-all,-clear-no-such-hyp".

(** ** Strings *)

Module Str.

(** A character is its code point, a string the list of its characters. *)
Abbreviation char := N (only parsing).
Abbreviation str := (list N) (only parsing).

(** A literal: the code points of an ASCII text. *)
Definition u (s : string) : str := N_of_ascii <$> list_ascii_of_string s.

Definition LF : str := [10%N].

(** The line boundaries of [str.splitlines]: LF, VT, FF, CR, FS, GS, RS,
    NEL, LINE SEPARATOR and PARAGRAPH SEPARATOR (CR LF counts once). *)
Definition is_linebreak (c : char) : bool :=
  bool_decide (c ∈ [10; 11; 12; 13; 28; 29; 30; 133; 8232; 8233]%N).

(** [s.splitlines()]: no empty string after a final line boundary. *)
Fixpoint splitlines (s : str) : list str :=
  match s with
  | [] => []
  | c :: rest =>
      if is_linebreak c then
        match rest with
        | c' :: rest' =>
            if (c =? 13)%N && (c' =? 10)%N
            then [] :: splitlines rest'
            else [] :: splitlines rest
        | [] => [[]]
        end
      else
        match splitlines rest with
        | [] => [[c]]
        | l :: ls => (c :: l) :: ls
        end
  end.

(** [sep.join(ls)] *)
Fixpoint join (sep : str) (ls : list str) : str :=
  match ls with
  | [] => []
  | l :: ls' =>
      match ls' with
      | [] => l
      | _ :: _ => l ++ sep ++ join sep ls'
      end
  end.

(** [itertools.takewhile] and [itertools.dropwhile] *)
Fixpoint takewhile {A} (p : A → bool) (l : list A) : list A :=
  match l with
  | [] => []
  | x :: l' => if p x then x :: takewhile p l' else []
  end.

Fixpoint dropwhile {A} (p : A → bool) (l : list A) : list A :=
  match l with
  | [] => []
  | x :: l' => if p x then dropwhile p l' else l
  end.

(** [s.replace(a, b)] for one-character [a] and [b] *)
Definition replace (a b : char) (s : str) : str :=
  (λ c, if (c =? a)%N then b else c) <$> s.

End Str.
Export Str.

(** ** Results and effects *)

(** The exceptions the program meets. [ValueError] is the one of [min]
    on an empty list; [ImportFailure] stands for whatever subclass of
    [Exception] the import of a module raised.  The others are those of
    [Path.mkdir] and [open]: [PathValueError] is the [ValueError] for a
    path text that cannot be passed to the operating system (an embedded
    NUL; [UnicodeEncodeError], a [ValueError] too, for a character that
    the file-system encoding lacks), [OSError] the error for a name that
    the file system does not take, and the four before it are the
    subclasses of [OSError] named so. *)
Inductive exn :=
  | AttributeError
  | ValueError
  | ImportFailure (msg : str)
  | PathValueError
  | FileNotFoundError
  | NotADirectoryError
  | IsADirectoryError
  | FileExistsError
  | OSError.

(** An exception of [Path.mkdir] or of [open]. *)
Definition write_error (e : exn) : bool :=
  match e with
  | PathValueError | FileNotFoundError | NotADirectoryError
  | IsADirectoryError | FileExistsError | OSError => true
  | _ => false
  end.

(** What a call does: it returns, it raises, or the fuel of the walk ran
    out before it did either. *)
Inductive result (A : Type) :=
  | Returned (a : A)
  | Raised (e : exn)
  | OutOfFuel.
Arguments Returned {A} a.
Arguments Raised {A} e.
Arguments OutOfFuel {A}.

Definition result_bind {A B} (r : result A) (k : A → result B) : result B :=
  match r with
  | Returned a => k a
  | Raised e => Raised e
  | OutOfFuel => OutOfFuel
  end.

(** What the outside sees of a run, in order. *)
Inductive event :=
  | EPrint (lines : list str)      (* print(lines) *)
  | EEcho (msg : str)              (* click.echo / click.secho *)
  | EMkdir (path : str)            (* Path.mkdir *)
  | EWrite (path : str) (text : str). (* open(path, 'w').write(text) *)

(** The directories and the regular files that exist, by the text of
    their absolute path, and the events so far.  Paths are compared as
    texts (no symbolic links, no [..]).  What the operating system
    refuses for a reason that neither the path nor the directory tree
    shows (permissions, a full or read-only file system) is not
    modelled. *)
Record World := mkWorld {
  dirs : gset str;
  files : gmap str str;
  trace : list event
}.

Definition empty_world : World := mkWorld ∅ ∅ [].

Definition M (A : Type) : Type := World → result A * World.

Definition ret {A} (a : A) : M A := λ w, (Returned a, w).
Definition raise {A} (e : exn) : M A := λ w, (Raised e, w).
Definition diverge {A} : M A := λ w, (OutOfFuel, w).
Definition lift {A} (r : result A) : M A := λ w, (r, w).

Definition bind {A B} (m : M A) (k : A → M B) : M B := λ w,
  match m w with
  | (Returned a, w') => k a w'
  | (Raised e, w') => (Raised e, w')
  | (OutOfFuel, w') => (OutOfFuel, w')
  end.

(** [try: m  except Exception as e: h e] *)
Definition try_except {A} (m : M A) (h : exn → M A) : M A := λ w,
  match m w with
  | (Raised e, w') => h e w'
  | r => r
  end.

(** stdpp's monad notations ([x ← m; k] and [m ;; k]) at [M]. *)
#[global] Instance M_ret : MRet M := @ret.
#[global] Instance M_bind : MBind M := λ A B k m, bind m k.

Definition emit (e : event) : M unit := λ w,
  (Returned tt, mkWorld (dirs w) (files w) (trace w ++ [e])).

Definition print (lines : list str) : M unit := emit (EPrint lines).
Definition echo (msg : str) : M unit := emit (EEcho msg).

(** Each body in turn, until one does not return. *)
Fixpoint for_each {A} (l : list A) (body : A → M unit) : M unit :=
  match l with
  | [] => ret tt
  | x :: l' => body x ;; for_each l' body
  end.

(** The value of a computation started in the empty world. *)
Definition result_of {A} (m : M A) : result A := (m empty_world).1.

(** ** The docstring normalizer *)

(** [empty] of [trim_empty_lines]: [x] is the empty string *)
Definition empty (x : str) : bool := bool_decide (x = []).

(** [list(dropwhile(empty, ·))], reversed, again, reversed *)
Definition strip_empty_lines (lines : list str) : list str :=
  reverse (dropwhile empty (reverse (dropwhile empty lines))).

(** [trim_empty_lines(data)].  [None] is Python's [None]: it has no
    [splitlines]. *)
Definition trim_empty_lines (data : option str) : result str :=
  match data with
  | None => Raised AttributeError
  | Some data => Returned (join LF (strip_empty_lines (splitlines data)))
  end.

(** The predicate of the [takewhile] in [trim_docstring] *)
Definition is_indent (x : char) : bool := (x =? 32)%N || (x =? 9)%N.

Definition indentation (line : str) : nat := length (takewhile is_indent line).

(** [min(l)] *)
Definition py_min (l : list nat) : result nat :=
  match l with
  | [] => Raised ValueError
  | x :: l' => Returned (foldl Nat.min x l')
  end.

(** [if line]: a non-empty string is true *)
Definition truthy_str (line : str) : bool := negb (empty line).

Definition common_indentation (lines : list str) : result nat :=
  py_min (indentation <$> filter (λ line, truthy_str line = true) lines).

(** [trim_docstring(data)] *)
Definition trim_docstring (data : option str) : M str :=
  lines ← lift (result_bind (trim_empty_lines data) (λ t, Returned (splitlines t)));
  print lines;;
  ci ← lift (common_indentation lines);
  ret (join LF (drop ci <$> lines)).

(** ** The click objects the program reads *)

(** The identity of a Python object. *)
Definition obj_id := nat.

(** A value of any type as the program uses it: it is compared with a
    string and formatted into one.  [PObj text] is a value that is not a
    string (a number, a boolean, a tuple, ...), given by its [str()]; it
    is equal to no string. *)
Inductive pyval :=
  | PStr (s : str)
  | PObj (text : str).

#[global] Instance pyval_eq_dec : EqDecision pyval.
Proof. solve_decision. Defined.

(** [f"{v}"] *)
Definition py_format (v : pyval) : str :=
  match v with
  | PStr s => s
  | PObj text => text
  end.

(** A [click.Parameter].  A field is [None] when the attribute is
    missing or is Python's [None], which [getattr(opt, _, None)] does not
    tell apart. *)
Record Param := mkParam {
  p_name : str;
  p_opts : list str;
  p_prompt : option str;
  p_required : option bool;
  p_default : option pyval;
  p_help : option str;
  p_type : option str    (* [str()] of the type object *)
}.

(** A [click.Command].  [commands] is the mapping of a group, name to
    sub-command, in insertion order; a plain command has no such
    attribute. *)
Record Command := mkCommand {
  name : str;
  help : option str;
  params : list Param;
  commands : option (list (str * obj_id))
}.

(** A [click.Context], as [recursive_help] builds it. *)
Inductive Ctx :=
  | mkContext (command : obj_id) (info_name : str) (parent : option Ctx).

Definition info_name (ctx : Ctx) : str :=
  match ctx with mkContext _ n _ => n end.

(** What click computes for a command in a context. *)
Class Click := {
  get_help : Command → Ctx → str;
  get_usage : Command → Ctx → str;
  get_params : Command → Ctx → list Param;
  collect_usage_pieces : Command → Ctx → list str
}.

(** What the interpreter and the operating system provide: [str.lower],
    [os.getcwd()], [Path.joinpath], [Path.absolute] and [Path.parents]
    (the directories above a path, the nearest first) on path texts,
    [importlib.import_module] (a module is looked up by attribute name)
    and [str(e)] of an exception.  Two tests say what the platform does
    not take as a path: [unencodable p], the text [p] cannot be passed to
    the operating system (it holds a NUL, or a character that the
    file-system encoding lacks), which [open] and [os.mkdir] find before
    they look at the file system; [name_refused p], the file system does
    not create an entry named as [p] is in a directory that exists (the
    name is too long, or not allowed there). *)
Class Platform := {
  lower : str → str;
  getcwd : str;
  joinpath : str → str → str;
  absolute : str → str;
  parents : str → list str;
  unencodable : str → bool;
  name_refused : str → bool;
  import_module : str → exn + (str → option obj_id);
  exn_str : exn → str
}.

(** The dictionary yielded by [recursive_help]. *)
Record Descriptor := mkDescriptor {
  d_command : obj_id;
  d_help : str;
  d_parent : str;
  d_usage : str;
  d_params : list Param;
  d_options : list str
}.

(** The dictionary [dump_helper] builds for one parameter. *)
Record OptInfo := mkOptInfo {
  o_usage : str;
  o_prompt : option str;
  o_required : option bool;
  o_default : option pyval;
  o_help : option str;
  o_type : str
}.

(** [d[k] = v] on a dictionary kept in insertion order: a key already
    there keeps its place and takes the new value. *)
Fixpoint dict_set {V} (k : str) (v : V) (d : list (str * V)) : list (str * V) :=
  match d with
  | [] => [(k, v)]
  | (k', v') :: d' =>
      if decide (k' = k) then (k', v) :: d' else (k', v') :: dict_set k v d'
  end.

(** [{key(x): val(x) for x in l}] *)
Definition dict_comprehension {A V} (key : A → str) (val : A → V) (l : list A)
  : list (str * V) :=
  foldl (λ d x, dict_set (key x) (val x) d) [] l.

(** ** The tree walker, the option formatter, the driver *)

Section Program.
Context `{Click} `{Platform}.

(** The Python objects: which command an identity denotes. *)
Variable heap : obj_id → Command.

(** [getattr(cmd, 'commands', {}).values()] *)
Definition sub_commands (cmd : Command) : list obj_id :=
  match commands cmd with
  | None => []
  | Some d => snd <$> d
  end.

(** [parent.info_name if parent else ''] *)
Definition parent_name (parent : option Ctx) : str :=
  match parent with Some p => info_name p | None => [] end.

(** The dictionary of the [yield]. *)
Definition describe (cmd : obj_id) (parent : option Ctx) (ctx : Ctx)
  : Descriptor :=
  {| d_command := cmd;
     d_help := get_help (heap cmd) ctx;
     d_parent := parent_name parent;
     d_usage := get_usage (heap cmd) ctx;
     d_params := get_params (heap cmd) ctx;
     d_options := collect_usage_pieces (heap cmd) ctx |}.

(** One round of [for sub in commands.values()]: everything the nested
    generator [walk sub ctx] yields is yielded; the loop goes on if that
    generator came to its end. *)
Definition walk_step (walk : obj_id → option Ctx → list Descriptor * bool)
    (ctx : Ctx) (acc : list Descriptor * bool) (sub : obj_id)
  : list Descriptor * bool :=
  if acc.2
  then let r := walk sub (Some ctx) in (acc.1 ++ r.1, r.2)
  else acc.

(** [recursive_help(cmd, parent)]: the dictionaries the generator yields
    within [fuel] nested calls, and whether it came to its end. *)
Fixpoint recursive_help (fuel : nat) (cmd : obj_id) (parent : option Ctx)
  : list Descriptor * bool :=
  match fuel with
  | 0 => ([], false)
  | S fuel' =>
      let ctx := mkContext cmd (name (heap cmd)) parent in
      let subs := foldl (walk_step (recursive_help fuel') ctx) ([], true)
                        (sub_commands (heap cmd)) in
      (describe cmd parent ctx :: subs.1, subs.2)
  end.

(** [opt.get('required')] as a condition *)
Definition truthy (b : option bool) : bool :=
  match b with Some true => true | _ => false end.

(** [opt.get('help') or ''] *)
Definition or_empty (s : option str) : str :=
  match s with Some s => s | None => [] end.

(** [format_option(opt)] *)
Definition format_option (opt : OptInfo) : str :=
  let usage := join (u ", ") (splitlines (o_usage opt)) in
  let required := if truthy (o_required opt) then u " (REQUIRED)" else [] in
  let default_value := o_default opt in
  let default_value :=
    if decide (default_value = Some (PStr getcwd))
    then Some (PStr (u "<current directory>"))
    else default_value in
  let res := u "* `" ++ usage ++ u "`" ++ required ++ u ": "
             ++ or_empty (o_help opt) ++ LF in
  match default_value with
  | Some v => res ++ u "  * Default value: `" ++ py_format v ++ u "`" ++ LF
  | None => res
  end.

(** [md_base_template.format(command_name=.., description=.., usage=..,
    options=..)] *)
Definition md_base_template (command_name description usage options : str) : str :=
  u "# " ++ command_name ++ LF ++ LF
  ++ description ++ LF ++ LF
  ++ u "**Usage:** `" ++ usage ++ u "`" ++ LF ++ LF
  ++ u "**Options:**" ++ LF ++ LF
  ++ options ++ LF ++ LF.

(** The value [dump_helper] gives a parameter in [options]. *)
Definition opt_info (opt : Param) : OptInfo :=
  {| o_usage := join LF (p_opts opt);
     o_prompt := p_prompt opt;
     o_required := p_required opt;
     o_default := p_default opt;
     o_help := p_help opt;
     o_type := match p_type opt with Some t => t | None => u "None" end |}.

(** The dictionary [options] of [dump_helper]. *)
Definition options (helpdct : Descriptor) : list (str * OptInfo) :=
  dict_comprehension p_name opt_info (d_params helpdct).

(** The [options] argument of the template: every value of the
    dictionary, formatted. *)
Definition options_text (helpdct : Descriptor) : str :=
  concat (format_option <$> (snd <$> options helpdct)).

Definition md_template (helpdct : Descriptor) (description : str) : str :=
  md_base_template (name (heap (d_command helpdct))) description
                   (d_usage helpdct) (options_text helpdct).

(** [command.name.replace(' ', '-').lower() + '.md'] *)
Definition md_file_name (command_name : str) : str :=
  lower (replace 32%N 45%N command_name) ++ u ".md".

Definition md_file_path (docs_dir : str) (helpdct : Descriptor) : str :=
  absolute (joinpath docs_dir (md_file_name (name (heap (d_command helpdct))))).

(** [Path(p).parent]: the directory a path lies in (the path itself at
    the root). *)
Definition directory_of (p : str) : str := default p (head (parents p)).

(** [path.exists()]: there is a directory or a file at the path. *)
Definition path_exists (p : str) : M bool := λ w,
  (Returned (bool_decide (absolute p ∈ dirs w ∨ absolute p ∈ dom (files w))), w).


(** The directories of [ps] made one after the other, a directory that
    is there left as it is, up to the first whose name the file system
    refuses: whether all were made, and the directories then. *)
Fixpoint make_dirs (ps : list str) (ds : gset str) : bool * gset str :=
  match ps with
  | [] => (true, ds)
  | a :: ps' =>
      if bool_decide (a ∈ ds) then make_dirs ps' ds
      else if name_refused a then (false, ds)
      else make_dirs ps' ({[a]} ∪ ds)
  end.

(** [path.mkdir(parents=True, exist_ok=False)]: refused when the path is
    there, and when a regular file is in the way of a directory above;
    otherwise the missing directories above the path are made, the
    outermost first, and then the path itself.  A name that the file
    system refuses stops it, with the directories made before left in
    place. *)
Definition mkdir (p : str) : M unit := λ w,
  if unencodable (absolute p) then (Raised PathValueError, w)
  else if bool_decide (absolute p ∈ dirs w ∨ absolute p ∈ dom (files w))
  then (Raised FileExistsError, w)
  else if bool_decide (Exists (λ a, a ∈ dom (files w)) (parents (absolute p)))
  then (Raised NotADirectoryError, w)
  else
    let r := make_dirs (reverse (parents (absolute p)) ++ [absolute p]) (dirs w) in
    if r.1
    then (Returned tt, mkWorld r.2 (files w) (trace w ++ [EMkdir p]))
    else (Raised OSError, mkWorld r.2 (files w) (trace w)).

(** [with open(p, 'w') as f: f.write(text)] for an absolute path: the
    file is created or truncated in the directory it lies in.  [open]
    raises for a path text that cannot be passed on, for a path that is a
    directory, in a directory that exists for a name the file system
    refuses, and when the directory is not there: because a regular file
    is in the way, or nothing is. *)
Definition write_file (p text : str) : M unit := λ w,
  if unencodable p then (Raised PathValueError, w)
  else if bool_decide (p ∈ dirs w) then (Raised IsADirectoryError, w)
  else if bool_decide (directory_of p ∈ dirs w)
  then
    if name_refused p then (Raised OSError, w)
    else (Returned tt,
          mkWorld (dirs w) (<[p := text]> (files w)) (trace w ++ [EWrite p text]))
  else if bool_decide (Exists (λ a, a ∈ dom (files w)) (parents p))
  then (Raised NotADirectoryError, w)
  else (Raised FileNotFoundError, w).

(** The body of the loop of [dump_helper]. *)
Definition dump_helper_body (docs_dir : str) (helpdct : Descriptor) : M unit :=
  description ← trim_docstring (help (heap (d_command helpdct)));
  path_exists docs_dir ≫= λ present : bool,
  (if present then ret tt else mkdir docs_dir);;
  write_file (md_file_path docs_dir helpdct) (md_template helpdct description).

(** [dump_helper(base_command, docs_dir)] *)
Definition dump_helper (fuel : nat) (base_command : obj_id) (docs_dir : str)
  : M unit :=
  let walk := recursive_help fuel base_command None in
  for_each walk.1 (dump_helper_body docs_dir);;
  if walk.2 then ret tt else diverge.

(** [dumps(baseModule, baseCommand, docsPath)] *)
Definition dumps (fuel : nat) (base_module base_command docs_path : str)
  : M unit :=
  echo (u "Creating a new documents from " ++ base_module ++ u "."
        ++ base_command ++ u " into " ++ docs_path);;
  match import_module base_module with
  | inl e =>
      echo (u "Could not find module: " ++ base_module ++ u ". Error: "
            ++ exn_str e)
  | inr module_ =>
      match module_ base_command with
      | None =>
          echo (u "Could not find command " ++ base_command ++ u " on module "
                ++ base_module)
      | Some command_ =>
          try_except
            (dump_helper fuel command_ docs_path;;
             echo (u "Created docs under " ++ docs_path))
            (λ e, echo (u "Dumps command failed: " ++ exn_str e);; raise e)
      end
  end.

End Program.

(** The exit status of the process: click exits with 0 when the command
    function returns; an exception that leaves it ends the interpreter
    with status 1. *)
Definition exit_code {A} (r : result A) : Z :=
  match r with
  | Returned _ => 0
  | _ => 1
  end.

(** ** Command trees *)

(** The shape of a command hierarchy: a command and the trees of its
    sub-commands, in the order of its mapping. *)
Inductive tree :=
  | Node (c : obj_id) (subs : list tree).

Definition root (t : tree) : obj_id :=
  match t with Node c _ => c end.

Definition children (t : tree) : list tree :=
  match t with Node _ subs => subs end.

(** The number of nodes. *)
Fixpoint size (t : tree) : nat :=
  match t with Node _ subs => S (sum_list (size <$> subs)) end.

(** The number of nodes on the longest path from the root down. *)
Fixpoint height (t : tree) : nat :=
  match t with Node _ subs => S (max_list (height <$> subs)) end.

(** The commands of the nodes, parent before children. *)
Fixpoint nodes (t : tree) : list obj_id :=
  match t with Node c subs => c :: concat (nodes <$> subs) end.

Section Trees.
Context `{Click}.
Variable heap : obj_id → Command.

(** [t] is the hierarchy under its root: at every node the sub-trees are
    those of the sub-commands of the node's command, in their order. *)
Fixpoint tree_ok (t : tree) : bool :=
  match t with
  | Node c subs =>
      bool_decide (root <$> subs = sub_commands (heap c)) && forallb tree_ok subs
  end.

(** Pre-order as the specification words it: the root first, then for
    each child in the declared order that child's whole subtree; every
    node goes with the display name of its parent. *)
Fixpoint preorder (parent_name : str) (t : tree) : list (obj_id * str) :=
  match t with
  | Node c subs => (c, parent_name) :: concat (preorder (name (heap c)) <$> subs)
  end.

(** The dictionaries of the nodes of a tree, parent before children. *)
Fixpoint descriptors (parent : option Ctx) (t : tree) : list Descriptor :=
  match t with
  | Node c subs =>
      let ctx := mkContext c (name (heap c)) parent in
      describe heap c parent ctx :: concat (descriptors (Some ctx) <$> subs)
  end.

End Trees.

(** ** The properties the specification names *)

(** A blank line: nothing on it but spaces and tabs, if anything. *)
Definition blank (line : str) : bool := forallb is_indent line.

(** A line of spaces and tabs only, at least one. *)
Definition whitespace_only (line : str) : bool :=
  truthy_str line && blank line.

(** A line that holds no line boundary. *)
Definition break_free (line : str) : Prop :=
  Forall (λ c, is_linebreak c = false) line.

(** No empty line at the start or at the end. *)
Definition no_outer_empty_line (lines : list str) : Prop :=
  head lines ≠ Some [] ∧ last lines ≠ Some [].

(** The elements of [l] without repetition, each at its first place. *)
Definition first_occurrences (l : list str) : list str :=
  foldl (λ acc k, if decide (k ∈ acc) then acc else acc ++ [k]) [] l.

(** The last element of [l] that satisfies [p]. *)
Definition find_last {A} (p : A → bool) (l : list A) : option A :=
  head (filter (λ x, p x = true) (reverse l)).

(** The [EWrite] events of a trace. *)
Definition writes (tr : list event) : list (str * str) :=
  omap (λ e, match e with EWrite p text => Some (p, text) | _ => None end) tr.

(** The [EEcho] events of a trace. *)
Definition echoes (tr : list event) : list str :=
  omap (λ e, match e with EEcho msg => Some msg | _ => None end) tr.


Section Documents.
Context `{Platform}.
Variable heap : obj_id → Command.








(** What a run keeps of the world before it: the directories, the
    files (those at paths other than those of documents under [docs_dir]
    unchanged), the events. *)
Definition keeps (docs_dir : str) (w w' : World) : Prop :=
  dirs w ⊆ dirs w'
  ∧ dom (files w) ⊆ dom (files w')
  ∧ (∀ p, (∀ n, p ≠ absolute (joinpath docs_dir (md_file_name n))) →
          files w' !! p = files w !! p)
  ∧ ∃ tr, trace w' = trace w ++ tr.

End Documents.



(** The [EMkdir] events of a trace. *)
Definition mkdirs (tr : list event) : list str :=
  omap (λ e, match e with EMkdir p => Some p | _ => None end) tr.



(** [sub] is one of the sub-commands of [cmd]. *)
Definition sub_command_of (heap : obj_id → Command) (cmd sub : obj_id) : Prop :=
  sub ∈ sub_commands (heap cmd).

(** Two names that differ at most in having a space where the other has
    a hyphen. *)
Definition same_up_to_hyphens (n1 n2 : str) : Prop :=
  Forall2 (λ a b, a = b ∨ ((a = 32 ∨ a = 45) ∧ (b = 32 ∨ b = 45)))%N n1 n2.

(** ** Sample objects *)

Module Sample.

(** ASCII lower-casing, which is [str.lower] on ASCII text. *)
Definition ascii_lower (s : str) : str :=
  (λ c, if (65 <=? c)%N && (c <=? 90)%N then (c + 32)%N else c) <$> s.

Definition starts_with (p s : str) : bool :=
  bool_decide (take (length p) s = p).

(** The text before the last [/] of an absolute path, [/] itself for a
    path directly under the root. *)
Definition dirname (p : str) : str :=
  let d := reverse (drop 1 (dropwhile (λ c, negb (c =? 47)%N) (reverse p))) in
  if decide (d = []) then u "/" else d.

(** The text after the last [/] of a path. *)
Definition basename (p : str) : str :=
  reverse (takewhile (λ c, negb (c =? 47)%N) (reverse p)).

Fixpoint parents_aux (n : nat) (p : str) : list str :=
  match n with
  | 0 => []
  | S n' =>
      if decide (p = u "/") then [] else dirname p :: parents_aux n' (dirname p)
  end.

Definition platform : Platform := {|
  lower := ascii_lower;
  getcwd := u "/home/user";
  joinpath d f := if starts_with (u "/") f then f else d ++ u "/" ++ f;
  absolute p := if starts_with (u "/") p then p else u "/home/user/" ++ p;
  parents p := parents_aux (length p) p;
  unencodable p := bool_decide (0%N ∈ p);
  name_refused p := bool_decide (255 < length (basename p));
  import_module m :=
    if decide (m = u "app")
    then inr (λ a, if decide (a = u "cli") then Some 0 else None)
    else inl (ImportFailure (u "No module named '" ++ m ++ u "'"));
  exn_str e :=
    match e with
    | AttributeError => u "'NoneType' object has no attribute 'splitlines'"
    | ValueError => u "min() arg is an empty sequence"
    | ImportFailure msg => msg
    | PathValueError => u "embedded null byte"
    | FileNotFoundError => u "[Errno 2] No such file or directory"
    | NotADirectoryError => u "[Errno 20] Not a directory"
    | IsADirectoryError => u "[Errno 21] Is a directory"
    | FileExistsError => u "[Errno 17] File exists"
    | OSError => u "[Errno 36] File name too long"
    end
|}.

(** The option click adds to every command. *)
Definition help_option : Param :=
  mkParam (u "help") [u "--help"] None (Some false) (Some (PObj (u "False")))
          (Some (u "Show this message and exit.")) (Some (u "BOOL")).

Definition click : Click := {|
  get_help c ctx := u "Usage: " ++ info_name ctx ++ u " [OPTIONS]" ++ LF ++ LF
                    ++ or_empty (help c);
  get_usage c ctx := u "Usage: " ++ info_name ctx ++ u " [OPTIONS]";
  get_params c ctx := params c ++ [help_option];
  collect_usage_pieces c ctx := [u "[OPTIONS]"]
|}.

Definition option_ (n : string) (flags : list string) (required : bool)
    (default : option pyval) (help : option string) : Param :=
  mkParam (u n) (u <$> flags) None (Some required) default (u <$> help)
          (Some (u "STRING")).

(** A help text as it is written in a source file. *)
Definition docstring : str :=
  LF ++ u "    An application." ++ LF ++ LF ++ u "      With details." ++ LF.

(** A text with the line ends of another system. *)
Definition crlf : str := u "  one" ++ [13; 10]%N ++ u "  two" ++ [13; 10]%N.

(** A text whose first line is a single space. *)
Definition ragged : str := u " " ++ LF ++ u "  a".

(** The program's own commands ([main.py], lines 140 to 187): the group
    [cli], its command [dumps], and [cli.add_command(cli)], which makes
    the group a sub-command of itself.  [cli] has no docstring. *)
Definition cli : Command :=
  mkCommand (u "cli") None [] (Some [(u "dumps", 1); (u "cli", 0)]).

Definition dumps_cmd : Command :=
  mkCommand (u "dumps")
    (Some (u "# Click-md" ++ LF ++ u "Create md files per each command," ++ LF
           ++ u "in format of `command.md`," ++ LF
           ++ u "under the `--docsPath` directory."))
    [option_ "basemodule" ["--baseModule"]%string true None
       (Some "The base command module path to import"%string);
     option_ "basecommand" ["--baseCommand"]%string true None
       (Some "The base command function to import"%string);
     option_ "docspath" ["--docsPath"]%string true None
       (Some "The docs dir path to write the md files"%string)]
    None.

Definition own_heap : obj_id → Command :=
  λ i, match i with 0 => cli | _ => dumps_cmd end.

(** A small application: a group with two commands, one of them a group
    with one command.  The names [Say Hello] and [say-hello] give the same
    file name. *)
Definition app : Command :=
  mkCommand (u "app") (Some (LF ++ u "    An application." ++ LF ++ LF
                             ++ u "      With details." ++ LF ++ u "    "))
    [option_ "dir" ["-d"; "--dir"]%string false (Some (PStr (u "/home/user"))) None]
    (Some [(u "hello", 1); (u "tools", 2)]).

Definition say_hello : Command :=
  mkCommand (u "Say Hello") (Some (u "  Greets the user." ++ LF))
    [option_ "name" ["--name"]%string true None None] None.

Definition tools : Command :=
  mkCommand (u "tools") (Some (u "Tools.")) []
    (Some [(u "say-hello", 3)]).

Definition say_hello' : Command :=
  mkCommand (u "say-hello") (Some (u "Another greeting."))
    [option_ "count" ["--count"]%string false (Some (PObj (u "1"))) (Some "How often."%string)]
    None.

Definition app_heap : obj_id → Command :=
  λ i, match i with 0 => app | 1 => say_hello | 2 => tools | _ => say_hello' end.

Definition app_tree : tree :=
  Node 0 [Node 1 []; Node 2 [Node 3 []]].

(** The same application with a command that has no help text. *)
Definition silent : Command :=
  mkCommand (u "silent") None [] None.

Definition silent_heap : obj_id → Command :=
  λ i, match i with 0 => app | 1 => say_hello | 2 => tools | _ => silent end.

(** A command whose name holds a [/]. *)
Definition slashed : Command :=
  mkCommand (u "a/b") (Some (u "Help.")) [] None.

Definition slashed_heap : obj_id → Command := λ _, slashed.

(** Commands of other names with help text: a name that is an absolute
    path, a name with a NUL in it, a name of 300 letters. *)
Definition named (n : str) : obj_id → Command :=
  λ _, mkCommand n (Some (u "Help.")) [] None.

Definition rooted_name : str := u "/etc/motd".
Definition nul_name : str := [97; 0; 98]%N.
Definition long_name : str := replicate 300 97%N.

(** A command with two parameters of one name. *)
Definition twice : Command :=
  mkCommand (u "twice") (Some (u "Two flags, one name."))
    [option_ "x" ["--a"]%string false None (Some "first"%string);
     option_ "x" ["--b"]%string false None (Some "second"%string)] None.

Definition twice_heap : obj_id → Command := λ _, twice.

End Sample.

(** * Proofs *)

(** ** Lines *)

Section Lines.
Implicit Types (s line : str) (ls lines : list str) (c : char).

Lemma splitlines_cons_plain c s :
  is_linebreak c = false →
  splitlines (c :: s) =
    match splitlines s with [] => [[c]] | l :: ls => (c :: l) :: ls end.
Proof. intros Hc. simpl. by rewrite Hc. Qed.

Lemma splitlines_LF s : splitlines (10%N :: s) = [] :: splitlines s.
Proof. by destruct s. Qed.

(** A line with no boundary in it is its own only line. *)
Lemma splitlines_one_line line :
  break_free line → line ≠ [] → splitlines line = [line].
Proof.
  induction 1 as [|c l Hc Hl IH]; [done|]. intros _.
  rewrite splitlines_cons_plain by done.
  destruct l as [|c' l']; [done|]. by rewrite IH.
Qed.

Lemma splitlines_line_LF line s :
  break_free line → splitlines (line ++ 10%N :: s) = line :: splitlines s.
Proof.
  induction 1 as [|c l Hc Hl IH]; simpl app.
  - apply splitlines_LF.
  - rewrite splitlines_cons_plain by done. by rewrite IH.
Qed.

(** [splitlines] undoes [join] on lines without boundaries, unless the
    last line is empty. *)
Lemma splitlines_join lines :
  Forall break_free lines → last lines ≠ Some [] →
  splitlines (join LF lines) = lines.
Proof.
  induction 1 as [|l ls Hl Hls IH]; [done|]. intros Hlast.
  destruct ls as [|l' ls'].
  - simpl. apply splitlines_one_line; [done|]. intros ->. by apply Hlast.
  - change (join LF (l :: l' :: ls')) with (l ++ 10%N :: join LF (l' :: ls')).
    rewrite splitlines_line_LF by done. f_equal. by apply IH.
Qed.

(** The lines [splitlines] gives have no boundary in them. *)
Lemma splitlines_break_free s : Forall break_free (splitlines s).
Proof.
  remember (length s) as n eqn:Hn. revert s Hn.
  induction n as [n IH] using lt_wf_ind. intros [|c rest] Hn; [constructor|].
  simpl in Hn. simpl.
  destruct (is_linebreak c) eqn:Hc.
  - destruct rest as [|c' rest']; [repeat constructor|].
    destruct ((c =? 13)%N && (c' =? 10)%N).
    + constructor; [constructor|]. eapply IH; [|done]. simpl in Hn. lia.
    + constructor; [constructor|]. eapply IH; [|done]. lia.
  - assert (Forall break_free (splitlines rest)) as Hrest
      by (eapply IH; [|done]; lia).
    destruct (splitlines rest) as [|l ls]; [by repeat constructor|].
    inversion_clear Hrest. constructor; [by constructor|done].
Qed.

Lemma dropwhile_spec {A} (p : A → bool) (l : list A) :
  ∃ k, l = k ++ dropwhile p l ∧ Forall (λ x, p x = true) k
       ∧ ∀ x, head (dropwhile p l) = Some x → p x = false.
Proof.
  induction l as [|x l (k & Hk & Hall & Hhd)]; simpl.
  - exists []. by repeat split.
  - destruct (p x) eqn:Hx.
    + exists (x :: k). split; [by rewrite Hk at 1|]. split; [by constructor|done].
    + exists []. repeat split; [constructor|]. simpl. by intros ? [= <-].
Qed.

Lemma dropwhile_id {A} (p : A → bool) (l : list A) :
  (∀ x, head l = Some x → p x = false) → dropwhile p l = l.
Proof. destruct l as [|x l]; [done|]. simpl. intros ->; done. Qed.

Lemma empty_true line : empty line = true ↔ line = [].
Proof. unfold empty. by rewrite bool_decide_eq_true. Qed.

Lemma empty_false line : empty line = false ↔ line ≠ [].
Proof. unfold empty. by rewrite bool_decide_eq_false. Qed.

(** What [strip_empty_lines] removes and what it leaves. *)
Lemma strip_empty_lines_spec lines :
  ∃ k1 k2, lines = k1 ++ strip_empty_lines lines ++ k2
           ∧ Forall (λ l, l = []) k1 ∧ Forall (λ l, l = []) k2
           ∧ no_outer_empty_line (strip_empty_lines lines).
Proof.
  unfold strip_empty_lines.
  destruct (dropwhile_spec empty lines) as (k1 & H1 & Hk1 & Hhd1).
  destruct (dropwhile_spec empty (reverse (dropwhile empty lines)))
    as (k & H2 & Hk & Hhd2).
  set (a := dropwhile empty lines) in *.
  set (b := dropwhile empty (reverse a)) in *.
  assert (a = reverse b ++ reverse k) as Ha.
  { rewrite <- reverse_app, <- H2. by rewrite reverse_involutive. }
  exists k1, (reverse k). split; [by rewrite <- Ha|].
  split; [by eapply Forall_impl; [done|]; intros ?; apply empty_true|].
  split.
  { apply Forall_reverse. eapply Forall_impl; [done|]. intros ?; apply empty_true. }
  split.
  - intros Hh. destruct (reverse b) as [|x r] eqn:Hr; [done|].
    simpl in Hh. injection Hh as ->.
    specialize (Hhd1 []). rewrite Ha in Hhd1. simpl in Hhd1.
    by specialize (Hhd1 eq_refl).
  - rewrite last_reverse. intros Hh. by specialize (Hhd2 _ Hh).
Qed.

Lemma strip_empty_lines_id lines :
  no_outer_empty_line lines → strip_empty_lines lines = lines.
Proof.
  intros [Hh Hl]. unfold strip_empty_lines.
  rewrite (dropwhile_id empty lines).
  - rewrite dropwhile_id; [apply reverse_involutive|].
    intros x. rewrite head_reverse. intros Hx. apply empty_false. by intros ->.
  - intros x Hx. apply empty_false. by intros ->.
Qed.

Lemma strip_empty_lines_elem lines line :
  line ∈ strip_empty_lines lines → line ∈ lines.
Proof.
  destruct (strip_empty_lines_spec lines) as (k1 & k2 & Heq & _).
  intros Hin. rewrite Heq. set_solver.
Qed.

Lemma strip_empty_lines_keeps lines line :
  line ∈ lines → line ≠ [] → line ∈ strip_empty_lines lines.
Proof.
  destruct (strip_empty_lines_spec lines) as (k1 & k2 & Heq & Hk1 & Hk2 & _).
  intros Hin Hne. rewrite Heq in Hin.
  rewrite !elem_of_app in Hin. rewrite !Forall_forall in *.
  destruct Hin as [Hin|[Hin|Hin]]; [|done|]; exfalso; eauto.
Qed.

Lemma strip_empty_lines_all_empty lines :
  (∀ line, line ∈ lines → line = []) → strip_empty_lines lines = [].
Proof.
  intros Hall. destruct (strip_empty_lines lines) as [|l ls] eqn:Hs; [done|].
  destruct (strip_empty_lines_spec lines) as (_ & _ & _ & _ & _ & Hh & _).
  rewrite Hs in Hh. exfalso. apply Hh. simpl. f_equal.
  apply Hall, strip_empty_lines_elem. rewrite Hs. by left.
Qed.

Lemma strip_empty_lines_Forall (P : str → Prop) lines :
  Forall P lines → Forall P (strip_empty_lines lines).
Proof.
  rewrite !Forall_forall. intros HP l Hl%strip_empty_lines_elem. by apply HP.
Qed.

(** The text [trim_empty_lines] returns splits back into the lines it
    was joined from. *)
Lemma splitlines_trimmed s :
  splitlines (join LF (strip_empty_lines (splitlines s)))
  = strip_empty_lines (splitlines s).
Proof.
  apply splitlines_join.
  - apply Forall_forall. intros l Hl%strip_empty_lines_elem.
    by eapply Forall_forall in Hl; [|apply splitlines_break_free].
  - by destruct (strip_empty_lines_spec (splitlines s)) as (_ & _ & _ & _ & _ & _ & ?).
Qed.

End Lines.

(** ** The docstring normalizer *)

Section Normalizer.
Implicit Types (data s line : str) (lines : list str) (w : World).

Lemma py_min_Returned (l : list nat) m :
  py_min l = Returned m → m ∈ l ∧ ∀ x, x ∈ l → m ≤ x.
Proof.
  destruct l as [|x l]; [done|]. simpl. intros [= <-].
  revert x. induction l as [|y l IH]; intros x; simpl.
  - split; [by left|]. intros ? ->%list_elem_of_singleton. done.
  - destruct (IH (x `min` y)) as [Hin Hle]. split.
    + apply elem_of_cons in Hin as [Heq|Hin]; [|by do 2 right].
      rewrite Heq. destruct (Nat.min_spec x y) as [[_ ->]|[_ ->]];
        [by left|right; by left].
    + intros z Hz. assert (foldl Nat.min (x `min` y) l ≤ x `min` y)
        by (apply Hle; by left).
      apply elem_of_cons in Hz as [->|Hz]; [lia|].
      apply elem_of_cons in Hz as [->|Hz]; [lia|].
      apply Hle. by right.
Qed.

Lemma py_min_nonempty (l : list nat) : l ≠ [] → ∃ m, py_min l = Returned m.
Proof. destruct l; [done|]. by eexists. Qed.

Lemma py_min_zero (l : list nat) : 0 ∈ l → py_min l = Returned 0.
Proof.
  intros Hin. destruct (py_min_nonempty l) as [m Hm]; [by intros ->; inversion Hin|].
  destruct (py_min_Returned _ _ Hm) as [_ Hle]. specialize (Hle 0 Hin).
  rewrite Hm. f_equal. lia.
Qed.

Lemma truthy_str_true line : truthy_str line = true ↔ line ≠ [].
Proof. unfold truthy_str. rewrite negb_true_iff. apply empty_false. Qed.

Lemma indentation_le line : indentation line ≤ length line.
Proof.
  unfold indentation. induction line as [|c l IH]; simpl; [done|].
  destruct (is_indent c); simpl; lia.
Qed.

(** A line that is not all spaces and tabs is longer than its
    indentation. *)
Lemma indentation_lt line :
  line ≠ [] → whitespace_only line = false → indentation line < length line.
Proof.
  unfold whitespace_only, blank, indentation. intros Hne.
  rewrite (proj2 (truthy_str_true line) Hne). simpl. clear Hne.
  induction line as [|c l IH]; [done|]. simpl.
  destruct (is_indent c); simpl; [|lia]. intros ?%IH. lia.
Qed.

Lemma indentation_drop line n :
  n ≤ indentation line → indentation (drop n line) = indentation line - n.
Proof.
  unfold indentation. revert n. induction line as [|c l IH]; intros n.
  - by rewrite drop_nil.
  - destruct n as [|n]; [by rewrite drop_0, Nat.sub_0_r|]. simpl.
    destruct (is_indent c); simpl; [|lia]. intros Hn. apply IH. lia.
Qed.

(** The common indentation is the least indentation of a non-empty line. *)
Lemma common_indentation_Returned lines ci :
  common_indentation lines = Returned ci →
  (∃ line, line ∈ lines ∧ line ≠ [] ∧ indentation line = ci)
  ∧ ∀ line, line ∈ lines → line ≠ [] → ci ≤ indentation line.
Proof.
  unfold common_indentation. intros [Hin Hle]%py_min_Returned. split.
  - apply list_elem_of_fmap in Hin as (l & -> & Hl).
    apply list_elem_of_filter in Hl as [Hl%truthy_str_true ?]. eauto.
  - intros l Hl Hne. apply Hle, list_elem_of_fmap. exists l. split; [done|].
    apply list_elem_of_filter. by rewrite truthy_str_true.
Qed.

Lemma common_indentation_nonempty lines line :
  line ∈ lines → line ≠ [] → ∃ ci, common_indentation lines = Returned ci.
Proof.
  intros Hin Hne. apply py_min_nonempty. intros Heq.
  assert (indentation line ∈ indentation <$> filter (λ l, truthy_str l = true) lines) as Hx.
  { apply list_elem_of_fmap. exists line. split; [done|].
    apply list_elem_of_filter. by rewrite truthy_str_true. }
  rewrite Heq in Hx. inversion Hx.
Qed.

Lemma common_indentation_Raised lines e :
  common_indentation lines = Raised e →
  e = ValueError ∧ ∀ line, line ∈ lines → line = [].
Proof.
  intros Hr. split.
  - unfold common_indentation, py_min in Hr.
    destruct (_ <$> _); by inversion Hr.
  - intros l Hl. destruct (decide (l = [])) as [|Hne]; [done|].
    destruct (common_indentation_nonempty _ _ Hl Hne) as [ci Hci]. congruence.
Qed.

(** The run of [trim_docstring] on a string: it prints the trimmed lines,
    then returns or raises as the common indentation does. *)
Lemma trim_docstring_run data w :
  trim_docstring (Some data) w =
    (result_bind (common_indentation (strip_empty_lines (splitlines data)))
       (λ ci, Returned (join LF (drop ci <$> strip_empty_lines (splitlines data)))),
     mkWorld (dirs w) (files w)
       (trace w ++ [EPrint (strip_empty_lines (splitlines data))])).
Proof.
  unfold trim_docstring, mbind, M_bind, bind, lift, print, emit; simpl.
  rewrite splitlines_trimmed.
  by destruct (common_indentation _).
Qed.

Lemma trim_docstring_None w :
  trim_docstring None w = (Raised AttributeError, w).
Proof. done. Qed.

(** The value does not depend on the world. *)
Lemma trim_docstring_result (d : option str) w :
  (trim_docstring d w).1 = result_of (trim_docstring d).
Proof.
  destruct d as [data|]; [|done].
  unfold result_of. by rewrite !trim_docstring_run.
Qed.

(** What is left when every non-empty line has a character that is not a
    space or a tab: the lines split back, none of the outer ones is empty,
    and no common indentation remains. *)
Lemma trimmed_lines_normal lines ci :
  Forall break_free lines → no_outer_empty_line lines →
  Forall (λ line, whitespace_only line = false) lines →
  common_indentation lines = Returned ci →
  splitlines (join LF (drop ci <$> lines)) = drop ci <$> lines
  ∧ no_outer_empty_line (drop ci <$> lines)
  ∧ common_indentation (drop ci <$> lines) = Returned 0.
Proof.
  intros Hbf [Hhd Hlast] Hws Hci.
  destruct (common_indentation_Returned _ _ Hci) as [(l0 & Hl0 & Hne0 & Hind0) Hle].
  assert (∀ l, l ∈ lines → l ≠ [] → drop ci l ≠ []) as Hkeep.
  { intros l Hl Hne Hd. apply (f_equal length) in Hd.
    rewrite length_drop in Hd. simpl in Hd.
    assert (indentation l < length l)
      by (apply indentation_lt; [done|]; by eapply Forall_forall in Hws).
    specialize (Hle l Hl Hne). lia. }
  assert (no_outer_empty_line (drop ci <$> lines)) as Hno.
  { split.
    - destruct lines as [|l ls]; [done|]. simpl. intros [= Hd].
      apply (Hkeep l); [by left| |done]. intros ->. by apply Hhd.
    - rewrite fmap_last. destruct (last lines) as [l|] eqn:Hl; [|done].
      simpl. intros [= Hd]. apply (Hkeep l); [by apply last_Some_elem_of| |done].
      intros ->. by apply Hlast. }
  split; [|split; [done|]].
  - apply splitlines_join; [|apply Hno].
    apply Forall_fmap. eapply Forall_impl; [exact Hbf|]. intros l. apply Forall_drop.
  - apply py_min_zero. apply list_elem_of_fmap. exists (drop ci l0). split.
    + rewrite indentation_drop by lia. lia.
    + apply list_elem_of_filter. split; [|by apply list_elem_of_fmap_2].
      apply truthy_str_true, Hkeep; done.
Qed.

End Normalizer.

Section NormalizerClaims.
Implicit Types (data line : str) (w : World).

(** C3 (as amended).  For every input with at least one non-empty line
    [trim_docstring] returns: the lines of the input without the empty
    lines at its start and end, each without its first [ci] characters,
    where [ci] is the least number of leading spaces and tabs of a
    non-empty remaining line; every non-empty line loses exactly [ci]
    columns of indentation, so differences of indentation are kept.  When
    moreover no line of the input is made of spaces and tabs only, the
    returned text splits into exactly these lines, its first and last line
    are not empty, and its common indentation is 0. *)
Theorem trim_docstring_normalizes data :
  (∃ line, line ∈ splitlines data ∧ line ≠ []) →
  ∃ ci k1 k2,
    splitlines data = k1 ++ strip_empty_lines (splitlines data) ++ k2
    ∧ Forall (λ line, line = []) k1 ∧ Forall (λ line, line = []) k2
    ∧ no_outer_empty_line (strip_empty_lines (splitlines data))
    ∧ common_indentation (strip_empty_lines (splitlines data)) = Returned ci
    ∧ (∀ w, (trim_docstring (Some data) w).1
            = Returned (join LF (drop ci <$> strip_empty_lines (splitlines data))))
    ∧ (∀ line, line ∈ strip_empty_lines (splitlines data) → line ≠ [] →
         ci ≤ indentation line
         ∧ indentation (drop ci line) = indentation line - ci)
    ∧ (Forall (λ line, whitespace_only line = false) (splitlines data) →
         splitlines (join LF (drop ci <$> strip_empty_lines (splitlines data)))
           = drop ci <$> strip_empty_lines (splitlines data)
         ∧ no_outer_empty_line (drop ci <$> strip_empty_lines (splitlines data))
         ∧ common_indentation (drop ci <$> strip_empty_lines (splitlines data))
           = Returned 0).
Proof.
  intros (l & Hl & Hne).
  destruct (strip_empty_lines_spec (splitlines data))
    as (k1 & k2 & Heq & Hk1 & Hk2 & Hno).
  destruct (common_indentation_nonempty (strip_empty_lines (splitlines data)) l)
    as [ci Hci]; [by apply strip_empty_lines_keeps|done|].
  destruct (common_indentation_Returned _ _ Hci) as [_ Hle].
  exists ci, k1, k2. repeat (split; [done|]).
  split; [|split].
  - intros w. rewrite trim_docstring_run. simpl. by rewrite Hci.
  - intros l' Hl' Hne'. specialize (Hle l' Hl' Hne').
    split; [done|]. by apply indentation_drop.
  - intros Hws. apply trimmed_lines_normal; [|done| |done].
    + apply strip_empty_lines_Forall, splitlines_break_free.
    + by apply strip_empty_lines_Forall.
Qed.

(** C4 (as amended).  For every input all of whose lines are empty (no
    line has a character, be it a space) the minimum is taken over an
    empty list: [trim_docstring] raises [ValueError], and nothing in it
    handles the exception. *)
Theorem trim_docstring_blank_raises data :
  (∀ line, line ∈ splitlines data → line = []) →
  common_indentation (strip_empty_lines (splitlines data)) = Raised ValueError
  ∧ ∀ w, (trim_docstring (Some data) w).1 = Raised ValueError.
Proof.
  intros Hall. rewrite (strip_empty_lines_all_empty _ Hall).
  split; [done|]. intros w. rewrite trim_docstring_run.
  by rewrite (strip_empty_lines_all_empty _ Hall).
Qed.

(** On a string, [trim_docstring] raises in that case only: a line of
    spaces is not empty. *)
Lemma trim_docstring_raises_only_blank data w e :
  (trim_docstring (Some data) w).1 = Raised e →
  e = ValueError ∧ ∀ line, line ∈ splitlines data → line = [].
Proof.
  rewrite trim_docstring_run. simpl.
  destruct (common_indentation _) as [ci| e'|] eqn:Hci; simpl; [done| |done].
  intros [= ->]. apply common_indentation_Raised in Hci as [-> Hall].
  split; [done|]. intros l Hl. destruct (decide (l = [])) as [|Hne]; [done|].
  apply Hall. by apply strip_empty_lines_keeps.
Qed.


(** C9 (as amended).  For every input with at least one non-empty line and
    no line made of spaces and tabs only, [trim_docstring] applied to its
    own result returns that result. *)
Theorem trim_docstring_idempotent data :
  (∃ line, line ∈ splitlines data ∧ line ≠ []) →
  Forall (λ line, whitespace_only line = false) (splitlines data) →
  ∃ out, (∀ w, (trim_docstring (Some data) w).1 = Returned out)
         ∧ (∀ w, (trim_docstring (Some out) w).1 = Returned out).
Proof.
  intros (l & Hl & Hne) Hws.
  destruct (strip_empty_lines_spec (splitlines data)) as (_ & _ & _ & _ & _ & Hno).
  destruct (common_indentation_nonempty (strip_empty_lines (splitlines data)) l)
    as [ci Hci]; [by apply strip_empty_lines_keeps|done|].
  destruct (trimmed_lines_normal (strip_empty_lines (splitlines data)) ci)
    as (Hsplit & Hno' & Hzero); [|done| |done|].
  { apply strip_empty_lines_Forall, splitlines_break_free. }
  { by apply strip_empty_lines_Forall. }
  exists (join LF (drop ci <$> strip_empty_lines (splitlines data))). split.
  { intros w. rewrite trim_docstring_run. simpl. by rewrite Hci. }
  intros w. rewrite trim_docstring_run. simpl.
  rewrite Hsplit, (strip_empty_lines_id _ Hno'), Hzero. simpl.
  do 2 f_equal. clear. induction (strip_empty_lines _) as [|l ls IH]; [done|].
  simpl. rewrite !drop_0. f_equal. exact IH.
Qed.

End NormalizerClaims.

(** The sample framework and platform, for statements about the samples. *)
#[local] Existing Instances Sample.click Sample.platform.

(** Closed goals on sample data: evaluate, then pick the element. *)
Ltac by_evaluation :=
  vm_compute; first [ reflexivity | done | by repeat constructor ].

(** A closed goal [x ∉ l]: go through [l]. *)
Ltac by_evaluation_not_elem :=
  let Hin := fresh in
  intros Hin; repeat (apply elem_of_cons in Hin as [Hin|Hin]; [done|]);
  by apply elem_of_nil in Hin.

Lemma trim_docstring_normalizes_witness :
  Forall (λ line, whitespace_only line = false) (splitlines Sample.docstring)
  ∧ (∀ w, (trim_docstring (Some Sample.docstring) w).1
          = Returned (u "An application." ++ LF ++ LF ++ u "  With details."))
  ∧ common_indentation
      (splitlines (u "An application." ++ LF ++ LF ++ u "  With details."))
    = Returned 0.
Proof.
  destruct (trim_docstring_normalizes Sample.docstring)
    as (ci & k1 & k2 & _ & _ & _ & _ & Hci & Hrun & _ & Hnormal).
  { exists (u "    An application."). split; by_evaluation. }
  assert (Forall (λ line, whitespace_only line = false)
            (splitlines Sample.docstring)) as Hws by by_evaluation.
  destruct (Hnormal Hws) as (Hsplit & _ & Hzero).
  vm_compute in Hci. injection Hci as <-.
  split; [exact Hws|]. split; [exact Hrun|].
  etransitivity; [|exact Hzero]. f_equal.
Defined.

(** C3, as it is stated, fails: the text [ragged] has the non-blank line
    ["  a"], yet what [trim_docstring] returns for it starts with an empty
    line and keeps one column of common indentation. *)
Lemma trim_docstring_leaves_blank_and_indent :
  u "  a" ∈ splitlines Sample.ragged
  ∧ result_of (trim_docstring (Some Sample.ragged)) = Returned (LF ++ u " a")
  ∧ head (splitlines (LF ++ u " a")) = Some []
  ∧ common_indentation (splitlines (LF ++ u " a")) = Returned 1.
Proof. repeat split; by_evaluation. Qed.

Lemma trim_docstring_blank_raises_witness :
  common_indentation (strip_empty_lines (splitlines (LF ++ LF))) = Raised ValueError
  ∧ ∀ w, (trim_docstring (Some (LF ++ LF)) w).1 = Raised ValueError.
Proof.
  apply (trim_docstring_blank_raises (LF ++ LF)).
  intros line Hin. vm_compute in Hin.
  repeat (apply elem_of_cons in Hin as [->|Hin]; [done|]).
  by apply elem_of_nil in Hin.
Defined.

(** C4, as it is stated, fails: the only line of the text of three
    spaces is blank, and [trim_docstring] returns the empty text for it. *)
Lemma trim_docstring_spaces_only :
  Forall (λ line, blank line = true) (splitlines (u "   "))
  ∧ result_of (trim_docstring (Some (u "   "))) = Returned [].
Proof. split; by_evaluation. Qed.

Lemma trim_docstring_idempotent_witness :
  ∃ out, (∀ w, (trim_docstring (Some Sample.docstring) w).1 = Returned out)
         ∧ (∀ w, (trim_docstring (Some out) w).1 = Returned out).
Proof.
  apply (trim_docstring_idempotent Sample.docstring).
  - exists (u "    An application."). split; by_evaluation.
  - by_evaluation.
Defined.

(** C9, as it is stated, fails: for [ragged], which has a non-blank line,
    a second pass changes the result of the first. *)
Lemma trim_docstring_second_pass_differs :
  u "  a" ∈ splitlines Sample.ragged
  ∧ result_of (trim_docstring (Some Sample.ragged)) = Returned (LF ++ u " a")
  ∧ result_of (trim_docstring (Some (LF ++ u " a"))) = Returned (u "a")
  ∧ LF ++ u " a" ≠ u "a".
Proof. repeat split; by_evaluation. Qed.

(** ** The tree walker *)

Lemma tree_ind' (P : tree → Prop) :
  (∀ c subs, Forall P subs → P (Node c subs)) → ∀ t, P t.
Proof.
  intros Hnode. fix IH 1. intros [c subs]. apply Hnode.
  induction subs as [|t subs IHsubs]; constructor; [apply IH|apply IHsubs].
Qed.

Section Walker.
Context `{Click}.
Variable heap : obj_id → Command.
Implicit Types (t : tree) (parent : option Ctx).

Lemma concat_fmap_Forall {A B} (f g : A → list B) (l : list A) :
  Forall (λ x, f x = g x) l → concat (f <$> l) = concat (g <$> l).
Proof.
  induction 1 as [|x l Hx _ IH]; [done|].
  rewrite !fmap_cons, !concat_cons. by rewrite Hx, IH.
Qed.

Lemma fmap_concat_fmap {A B C} (f : B → C) (g : A → list B) (l : list A) :
  f <$> concat (g <$> l) = concat ((λ x, f <$> g x) <$> l).
Proof.
  induction l as [|x l IH]; [done|].
  rewrite !fmap_cons, !concat_cons. by rewrite fmap_app, IH.
Qed.

Lemma length_concat_fmap {A B} (f : A → list B) (g : A → nat) (l : list A) :
  Forall (λ x, length (f x) = g x) l →
  length (concat (f <$> l)) = sum_list (g <$> l).
Proof.
  induction 1 as [|x l Hx _ IH]; [done|].
  rewrite !fmap_cons, concat_cons, length_app, Hx, IH. done.
Qed.

Lemma descriptors_Node c subs parent :
  descriptors heap parent (Node c subs) =
    describe heap c parent (mkContext c (name (heap c)) parent)
    :: concat (descriptors heap (Some (mkContext c (name (heap c)) parent)) <$> subs).
Proof. reflexivity. Qed.

Lemma preorder_Node c subs pname :
  preorder heap pname (Node c subs) =
    (c, pname) :: concat (preorder heap (name (heap c)) <$> subs).
Proof. reflexivity. Qed.

Lemma recursive_help_S fuel cmd parent :
  recursive_help heap (S fuel) cmd parent =
    let ctx := mkContext cmd (name (heap cmd)) parent in
    let subs := foldl (walk_step (recursive_help heap fuel) ctx) ([], true)
                      (sub_commands (heap cmd)) in
    (describe heap cmd parent ctx :: subs.1, subs.2).
Proof. reflexivity. Qed.

Lemma walk_subs_trees fuel ctx (subs : list tree) acc :
  Forall (λ t, ∀ parent, recursive_help heap fuel (root t) parent
                         = (descriptors heap parent t, true)) subs →
  foldl (walk_step (recursive_help heap fuel) ctx) (acc, true) (root <$> subs)
  = (acc ++ concat (descriptors heap (Some ctx) <$> subs), true).
Proof.
  intros Hsubs. revert acc.
  induction Hsubs as [|t subs Ht _ IH]; intros acc; simpl.
  - by rewrite app_nil_r.
  - unfold walk_step at 2. simpl. rewrite Ht. simpl.
    rewrite IH. by rewrite <- app_assoc.
Qed.

(** On a tree the walk comes to its end within [height t] nested calls
    and yields the dictionaries of the nodes, parent before children. *)
Lemma recursive_help_tree t :
  ∀ fuel parent, tree_ok heap t = true → height t ≤ fuel →
  recursive_help heap fuel (root t) parent = (descriptors heap parent t, true).
Proof.
  induction t as [c subs IH] using tree_ind'. intros fuel parent Hok Hfuel.
  simpl in Hok. apply andb_prop in Hok as [Hsubs%bool_decide_eq_true Hall].
  destruct fuel as [|fuel]; [simpl in Hfuel; lia|].
  simpl root. rewrite recursive_help_S. cbv zeta. rewrite <- Hsubs.
  rewrite walk_subs_trees; [done|].
  apply Forall_forall. intros t Ht parent'.
  rewrite Forall_forall in IH. apply IH; [done| |].
  - rewrite forallb_forall in Hall. by apply Hall, list_elem_of_In.
  - simpl in Hfuel.
    assert (height t ≤ max_list (height <$> subs)); [|lia].
    apply max_list_elem_of_le. by apply list_elem_of_fmap_2.
Qed.

Lemma descriptors_preorder t :
  ∀ parent, (λ d, (d_command d, d_parent d)) <$> descriptors heap parent t
            = preorder heap (parent_name parent) t.
Proof.
  induction t as [c subs IH] using tree_ind'. intros parent.
  rewrite descriptors_Node, preorder_Node, fmap_cons, fmap_concat_fmap.
  f_equal. apply concat_fmap_Forall.
  eapply Forall_impl; [exact IH|]. intros t Ht. apply Ht.
Qed.

Lemma descriptors_length t :
  ∀ parent, length (descriptors heap parent t) = size t.
Proof.
  induction t as [c subs IH] using tree_ind'. intros parent.
  rewrite descriptors_Node, length_cons.
  change (size (Node c subs)) with (S (sum_list (size <$> subs))).
  f_equal. apply length_concat_fmap.
  eapply Forall_impl; [exact IH|]. intros t Ht. apply Ht.
Qed.

Lemma descriptors_commands t :
  ∀ parent, d_command <$> descriptors heap parent t = nodes t.
Proof.
  induction t as [c subs IH] using tree_ind'. intros parent.
  rewrite descriptors_Node, fmap_cons, fmap_concat_fmap. simpl.
  f_equal. apply concat_fmap_Forall.
  eapply Forall_impl; [exact IH|]. intros t Ht. apply Ht.
Qed.

(** C7.  On the hierarchy under a root command the walk yields in
    pre-order: the root first, then, child by child in the order of the
    command's mapping, the whole subtree of the child; each dictionary
    carries the name of the parent command, the empty string at the root.
    [fuel] is any bound on nested calls that the height of the tree does
    not exceed. *)
Theorem recursive_help_preorder t fuel :
  tree_ok heap t = true → height t ≤ fuel →
  (recursive_help heap fuel (root t) None).2 = true
  ∧ (λ d, (d_command d, d_parent d)) <$> (recursive_help heap fuel (root t) None).1
    = preorder heap [] t.
Proof.
  intros Hok Hfuel. rewrite recursive_help_tree by done. simpl.
  split; [done|]. apply (descriptors_preorder t None).
Qed.

(** C8 (as amended).  When the commands under the root form a tree (no
    group is reached from itself), the walk is finite: it comes to its end
    within [height t] nested calls and yields one dictionary per node. *)
Theorem recursive_help_finite t fuel parent :
  tree_ok heap t = true → height t ≤ fuel →
  (recursive_help heap fuel (root t) parent).2 = true
  ∧ length (recursive_help heap fuel (root t) parent).1 = size t.
Proof.
  intros Hok Hfuel. rewrite recursive_help_tree by done. simpl.
  split; [done|]. apply descriptors_length.
Qed.

End Walker.

Lemma recursive_help_preorder_witness :
  (recursive_help Sample.app_heap 3 0 None).2 = true
  ∧ (λ d, (d_command d, d_parent d)) <$> (recursive_help Sample.app_heap 3 0 None).1
    = [(0, []); (1, u "app"); (2, u "app"); (3, u "tools")].
Proof.
  apply (recursive_help_preorder Sample.app_heap Sample.app_tree 3).
  - by_evaluation.
  - vm_compute. lia.
Defined.

Lemma recursive_help_finite_witness :
  (recursive_help Sample.app_heap 3 0 None).2 = true
  ∧ length (recursive_help Sample.app_heap 3 0 None).1 = 4.
Proof.
  apply (recursive_help_finite Sample.app_heap Sample.app_tree 3 None).
  - by_evaluation.
  - vm_compute. lia.
Defined.

Lemma own_cli_walk fuel parent :
  (recursive_help Sample.own_heap fuel 0 parent).2 = false
  ∧ length (recursive_help Sample.own_heap fuel 0 parent).1 = 2 * fuel - 1.
Proof.
  revert parent. induction fuel as [|fuel IH]; intros parent; [done|].
  rewrite recursive_help_S. cbv zeta.
  change (sub_commands (Sample.own_heap 0)) with [1; 0].
  cbn [foldl]. unfold walk_step. cbn [fst snd app].
  destruct fuel as [|fuel]; [done|].
  change (recursive_help Sample.own_heap (S fuel) 1 ?p) with
     ([describe Sample.own_heap 1 p (mkContext 1 (name Sample.dumps_cmd) p)], true).
  cbn [fst snd app].
  destruct (IH (Some (mkContext 0 (name (Sample.own_heap 0)) parent))) as [-> Hlen].
  split; [done|]. cbn [length]. rewrite Hlen. lia.
Qed.

(** C8, as it is stated, fails on the program's own group [cli], which
    [cli.add_command(cli)] makes a sub-command of itself: there are two
    command objects, four nested calls already yield seven dictionaries,
    the walk comes to its end within no number of nested calls, and it
    yields more than any given number of dictionaries.  (The interpreter
    stops such a walk with [RecursionError] at its recursion limit, which
    this model does not have.) *)
Lemma own_cli_walk_unbounded :
  sub_commands (Sample.own_heap 0) = [1; 0]
  ∧ length (recursive_help Sample.own_heap 4 0 None).1 = 7
  ∧ (∀ fuel, (recursive_help Sample.own_heap fuel 0 None).2 = false)
  ∧ (∀ n, ∃ fuel, n < length (recursive_help Sample.own_heap fuel 0 None).1).
Proof.
  split; [done|]. split; [done|]. split.
  - intros fuel. apply own_cli_walk.
  - intros n. exists (S n). destruct (own_cli_walk (S n) None) as [_ ->]. lia.
Qed.

(** ** Dictionaries in insertion order *)

Section Dict.
Context {A V : Type} (key : A → str) (val : A → V).
Implicit Types (d : list (str * V)) (l : list A) (k : str).

Lemma dict_set_keys k v d :
  fst <$> dict_set k v d
  = if decide (k ∈ fst <$> d) then fst <$> d else (fst <$> d) ++ [k].
Proof.
  induction d as [|[k' v'] d IH].
  - case_decide as Hin; [by apply elem_of_nil in Hin|done].
  - rewrite fmap_cons. cbn [dict_set fst].
    destruct (decide (k' = k)) as [->|Hne].
    + by rewrite decide_True by (by left).
    + rewrite fmap_cons, IH. cbn [fst].
      destruct (decide (k ∈ fst <$> d)) as [Hin|Hnin].
      * by rewrite decide_True by (by right).
      * rewrite decide_False; [done|].
        intros [?|?]%elem_of_cons; [congruence|done].
Qed.

Lemma dict_set_fresh k v d :
  k ∉ fst <$> d → dict_set k v d = d ++ [(k, v)].
Proof.
  induction d as [|[k' v'] d IH]; simpl; [done|]. intros Hnin.
  rewrite decide_False by (intros ->; apply Hnin; by left).
  rewrite IH; [done|]. intros ?. apply Hnin. by right.
Qed.

Lemma dict_set_elem k v d k' v' :
  NoDup (fst <$> d) →
  (k', v') ∈ dict_set k v d ↔ (k' = k ∧ v' = v) ∨ (k' ≠ k ∧ (k', v') ∈ d).
Proof.
  induction d as [|[k0 v0] d IH]; simpl.
  - intros _. rewrite list_elem_of_singleton, elem_of_nil. naive_solver.
  - intros [Hnin Hnd]%NoDup_cons.
    destruct (decide (k0 = k)) as [->|Hne].
    + rewrite !elem_of_cons. split.
      * intros [[= -> ->]|Hin]; [by left|]. right. split; [|by right].
        intros ->. apply Hnin. by apply (list_elem_of_fmap_2 fst) in Hin.
      * intros [[-> ->]|[Hne [[= -> ->]|Hin]]]; [by left|done|by right].
    + rewrite !elem_of_cons, (IH Hnd). naive_solver.
Qed.

Lemma dict_comprehension_snoc l x :
  dict_comprehension key val (l ++ [x])
  = dict_set (key x) (val x) (dict_comprehension key val l).
Proof. unfold dict_comprehension. by rewrite foldl_app. Qed.

(** The keys are the distinct keys of the elements, in the order in which
    they first come. *)
Lemma dict_comprehension_keys l :
  fst <$> dict_comprehension key val l = first_occurrences (key <$> l).
Proof.
  induction l as [|x l IH] using rev_ind; [done|].
  rewrite dict_comprehension_snoc, dict_set_keys, IH, fmap_app.
  unfold first_occurrences. by rewrite foldl_app.
Qed.

Lemma first_occurrences_NoDup (ks : list str) : NoDup (first_occurrences ks).
Proof.
  induction ks as [|k ks IH] using rev_ind; [constructor|].
  unfold first_occurrences. rewrite foldl_app. simpl.
  fold (first_occurrences ks). case_decide; [done|].
  apply NoDup_app. split; [done|]. split; [|apply NoDup_singleton].
  intros k' Hin ->%list_elem_of_singleton. done.
Qed.

Lemma first_occurrences_elem (ks : list str) k :
  k ∈ first_occurrences ks ↔ k ∈ ks.
Proof.
  induction ks as [|k0 ks IH] using rev_ind; [done|].
  unfold first_occurrences. rewrite foldl_app. simpl.
  fold (first_occurrences ks). rewrite elem_of_app, list_elem_of_singleton.
  case_decide; [|rewrite elem_of_app, list_elem_of_singleton]; naive_solver.
Qed.

Lemma find_last_snoc (p : A → bool) l x :
  find_last p (l ++ [x]) = if p x then Some x else find_last p l.
Proof.
  unfold find_last. rewrite reverse_snoc, filter_cons.
  destruct (p x); [by rewrite decide_True|by rewrite decide_False].
Qed.

(** The value of a key is that of the last element with the key. *)
Lemma dict_comprehension_elem l k v :
  (k, v) ∈ dict_comprehension key val l ↔
  ∃ x, find_last (λ x, bool_decide (key x = k)) l = Some x ∧ v = val x.
Proof.
  revert k v. induction l as [|x l IH] using rev_ind; intros k v.
  - split; [by intros ?%elem_of_nil|]. by intros (x & ? & _).
  - rewrite dict_comprehension_snoc, dict_set_elem, find_last_snoc.
    2:{ rewrite dict_comprehension_keys. apply first_occurrences_NoDup. }
    rewrite IH. case_bool_decide; naive_solver.
Qed.

(** With distinct keys every element has its own entry, in order. *)
Lemma dict_comprehension_NoDup l :
  NoDup (key <$> l) →
  dict_comprehension key val l = (λ x, (key x, val x)) <$> l.
Proof.
  induction l as [|x l IH] using rev_ind; [done|].
  rewrite fmap_app. intros (Hnd & Hnin & _)%NoDup_app.
  rewrite dict_comprehension_snoc, fmap_app, IH by done.
  apply dict_set_fresh. rewrite <- list_fmap_compose.
  intros Hin. apply (Hnin _ Hin). by left.
Qed.

End Dict.

(** ** The option formatter and the options section *)

Section Formatter.
Context {P : Platform}.
Implicit Types (opt : OptInfo) (helpdct : Descriptor).

(** C6.  [format_option] gives one bullet: the lines of the usage text
    (the spellings of the option) joined with [", "] between backquotes,
    [" (REQUIRED)"] exactly when the required flag is set, a colon, the
    help text or nothing when there is none, and the end of the line;
    then, exactly when there is a default value, an indented line
    ["* Default value: "] with the value between backquotes, where the
    placeholder [<current directory>] stands for a value equal to the
    current working directory. *)
Theorem format_option_bullet opt :
  format_option opt =
    u "* `" ++ join (u ", ") (splitlines (o_usage opt)) ++ u "`"
    ++ (if bool_decide (o_required opt = Some true) then u " (REQUIRED)" else [])
    ++ u ": " ++ (match o_help opt with Some h => h | None => [] end) ++ LF
    ++ match o_default opt with
       | None => []
       | Some v =>
           u "  * Default value: `"
           ++ (if decide (v = PStr getcwd) then u "<current directory>"
               else py_format v)
           ++ u "`" ++ LF
       end.
Proof.
  unfold format_option.
  assert ((if truthy (o_required opt) then u " (REQUIRED)" else [])
          = if bool_decide (o_required opt = Some true)
            then u " (REQUIRED)" else []) as ->.
  { by destruct (o_required opt) as [[]|]. }
  fold (or_empty (o_help opt)).
  destruct (o_default opt) as [v|].
  - destruct (decide (Some v = Some (PStr getcwd))) as [[= ->]|Hne].
    + rewrite decide_True by done. simpl py_format.
      by rewrite <- !(assoc_L (++)).
    + rewrite decide_False by congruence. simpl py_format.
      by rewrite <- !(assoc_L (++)).
  - rewrite decide_False by done. by rewrite app_nil_r.
Qed.

(** The usage text of a parameter gives back its spellings, as long as
    none of them holds a line boundary and the last one is not empty. *)
Lemma opt_info_spellings (p : Param) :
  Forall break_free (p_opts p) → last (p_opts p) ≠ Some [] →
  splitlines (o_usage (opt_info p)) = p_opts p.
Proof. apply splitlines_join. Qed.

(** C5 (as amended).  The options section is the concatenation of the
    formatter's output over the dictionary of the parameters keyed by
    name: one bullet for each distinct name, in the order in which the
    names first come, showing the last parameter declared with the name.
    When the names are pairwise distinct this is the formatter's output
    for every parameter, in declared order. *)
Theorem options_text_by_name helpdct :
  fst <$> options helpdct = first_occurrences (p_name <$> d_params helpdct)
  ∧ (∀ k o, (k, o) ∈ options helpdct ↔
       ∃ p, find_last (λ p, bool_decide (p_name p = k)) (d_params helpdct) = Some p
            ∧ o = opt_info p)
  ∧ options_text helpdct = concat (format_option <$> (snd <$> options helpdct))
  ∧ (NoDup (p_name <$> d_params helpdct) →
       options_text helpdct
       = concat ((λ p, format_option (opt_info p)) <$> d_params helpdct)).
Proof.
  split; [apply dict_comprehension_keys|].
  split; [apply dict_comprehension_elem|].
  split; [done|]. intros Hnd. unfold options_text, options.
  rewrite dict_comprehension_NoDup by done.
  by rewrite <- !list_fmap_compose.
Qed.

End Formatter.

(** The bullets of the specification's scenarios. *)
Example format_option_required :
  format_option (opt_info (Sample.option_ "name" ["--name"]%string true None None))
  = u "* `--name` (REQUIRED): " ++ LF.
Proof. reflexivity. Qed.

Example format_option_cwd :
  format_option (opt_info (Sample.option_ "dir" ["-d"; "--dir"]%string false
                             (Some (PStr (u "/home/user"))) None))
  = u "* `-d, --dir`: " ++ LF
    ++ u "  * Default value: `<current directory>`" ++ LF.
Proof. reflexivity. Qed.

Lemma options_text_by_name_witness :
  NoDup (p_name <$> d_params (describe Sample.app_heap 0 None
                                (mkContext 0 (u "app") None)))
  ∧ options_text (describe Sample.app_heap 0 None (mkContext 0 (u "app") None))
    = u "* `-d, --dir`: " ++ LF
      ++ u "  * Default value: `<current directory>`" ++ LF
      ++ u "* `--help`: Show this message and exit." ++ LF
      ++ u "  * Default value: `False`" ++ LF.
Proof.
  assert (NoDup (p_name <$> d_params (describe Sample.app_heap 0 None
                                        (mkContext 0 (u "app") None)))) as Hnd.
  { vm_compute. repeat (constructor; [by_evaluation_not_elem|]). constructor. }
  split; [exact Hnd|].
  destruct (options_text_by_name
              (describe Sample.app_heap 0 None (mkContext 0 (u "app") None)))
    as (_ & _ & _ & Hall).
  rewrite (Hall Hnd). reflexivity.
Defined.

(** C5, as it is stated, fails: the command [twice] declares two
    parameters named [x]; its options section has one bullet for the
    two, which is not the concatenation over the declared parameters. *)
Lemma options_text_merges_same_name :
  p_name <$> d_params (describe Sample.twice_heap 0 None (mkContext 0 (u "twice") None))
  = [u "x"; u "x"; u "help"]
  ∧ options_text (describe Sample.twice_heap 0 None (mkContext 0 (u "twice") None))
    = u "* `--b`: second" ++ LF
      ++ u "* `--help`: Show this message and exit." ++ LF
      ++ u "  * Default value: `False`" ++ LF
  ∧ options_text (describe Sample.twice_heap 0 None (mkContext 0 (u "twice") None))
    ≠ concat ((λ p, format_option (opt_info p))
                <$> d_params (describe Sample.twice_heap 0 None
                                (mkContext 0 (u "twice") None))).
Proof. repeat split; by_evaluation. Qed.

(** ** The dump *)


Lemma echoes_app tr1 tr2 : echoes (tr1 ++ tr2) = echoes tr1 ++ echoes tr2.
Proof. unfold echoes. apply omap_app. Qed.




Section Dump.
Context {C : Click} {P : Platform}.
Variable heap : obj_id → Command.
Implicit Types (helpdct : Descriptor) (w : World) (docs_dir : str).





(** Making directories removes none. *)
Lemma make_dirs_grows (l : list str) (ds : gset str) : ds ⊆ (make_dirs l ds).2.
Proof.
  revert ds. induction l as [|a l IH]; intros ds; simpl; [done|].
  case_bool_decide; [apply IH|]. destruct (name_refused a); [done|].
  etransitivity; [|apply IH]. set_solver.
Qed.


(** [mkdir] raises an error of its own or returns; it leaves files and
    directories in place, and adds at most its own event. *)
Lemma mkdir_cases docs_dir w :
  ∃ r w', mkdir docs_dir w = (r, w')
    ∧ (r = Returned tt ∨ ∃ e, r = Raised e ∧ write_error e = true)
    ∧ dirs w ⊆ dirs w' ∧ files w' = files w
    ∧ (trace w' = trace w ∨ trace w' = trace w ++ [EMkdir docs_dir]).
Proof.
  pose proof (make_dirs_grows (reverse (parents (absolute docs_dir))
                               ++ [absolute docs_dir]) (dirs w)) as Hsub.
  unfold mkdir. destruct (unencodable _).
  { do 2 eexists. split; [done|]. split; [right; by eexists|]. by eauto. }
  case_bool_decide.
  { do 2 eexists. split; [done|]. split; [right; by eexists|]. by eauto. }
  case_bool_decide.
  { do 2 eexists. split; [done|]. split; [right; by eexists|]. by eauto. }
  destruct (make_dirs _ _) as [[] ds]; simpl in *.
  - do 2 eexists. split; [done|]. split; [by left|]. by eauto.
  - do 2 eexists. split; [done|]. split; [right; by eexists|]. by eauto.
Qed.

(** [write_file] raises an error of its own, the world as it was, or
    puts the text at the path. *)
Lemma write_file_cases (p text : str) w :
  (∃ e, write_file p text w = (Raised e, w) ∧ write_error e = true)
  ∨ write_file p text w
    = (Returned tt,
       mkWorld (dirs w) (<[p := text]> (files w)) (trace w ++ [EWrite p text])).
Proof.
  unfold write_file. destruct (unencodable p); [by eauto|].
  case_bool_decide; [by eauto|]. case_bool_decide.
  - destruct (name_refused p); by eauto.
  - case_bool_decide; by eauto.
Qed.




(** On a command without help text the body raises at once and leaves
    the world as it is. *)
Lemma dump_helper_body_None docs_dir helpdct w :
  help (heap (d_command helpdct)) = None →
  dump_helper_body heap docs_dir helpdct w = (Raised AttributeError, w).
Proof. intros Hhelp. unfold dump_helper_body. by rewrite Hhelp. Qed.

(** The body returns, or it raises [AttributeError], [ValueError] or an
    error of the file system. *)
Lemma dump_helper_body_cases docs_dir helpdct w :
  (∃ w', dump_helper_body heap docs_dir helpdct w = (Returned tt, w'))
  ∨ (∃ e w', dump_helper_body heap docs_dir helpdct w = (Raised e, w')
             ∧ (e = AttributeError ∨ e = ValueError ∨ write_error e = true)).
Proof.
  destruct (help (heap (d_command helpdct))) as [data|] eqn:Hhelp.
  - unfold dump_helper_body, mbind, M_bind, bind. rewrite Hhelp, trim_docstring_run.
    destruct (common_indentation _) as [ci|e|] eqn:Hci; simpl.
    + unfold path_exists, ret.
      match goal with
      | |- context [bool_decide ?Q] => destruct (bool_decide Q)
      end.
      * destruct (write_file_cases (md_file_path heap docs_dir helpdct)
                    (md_template heap helpdct (join LF (drop ci <$> strip_empty_lines (splitlines data))))
                    (mkWorld (dirs w) (files w)
                       (trace w ++ [EPrint (strip_empty_lines (splitlines data))])))
          as [(e & -> & He)| ->]; eauto 10.
      * destruct (mkdir_cases docs_dir
                    (mkWorld (dirs w) (files w)
                       (trace w ++ [EPrint (strip_empty_lines (splitlines data))])))
          as (r & w1 & -> & [->|(e & -> & He)] & _); [|by eauto 10].
        destruct (write_file_cases (md_file_path heap docs_dir helpdct)
                    (md_template heap helpdct (join LF (drop ci <$> strip_empty_lines (splitlines data)))) w1)
          as [(e & -> & He)| ->]; eauto 10.
    + right. apply common_indentation_Raised in Hci as [-> _]. eauto 10.
    + unfold common_indentation, py_min in Hci. by destruct (_ <$> _).
  - right. rewrite dump_helper_body_None by done. eauto 10.
Qed.


(** The loop over dictionaries one of which is of a command without help
    text raises. *)
Lemma for_each_bodies_raise docs_dir (ds : list Descriptor) w :
  Exists (λ d, help (heap (d_command d)) = None) ds →
  ∃ e w', for_each ds (dump_helper_body heap docs_dir) w = (Raised e, w')
          ∧ (e = AttributeError ∨ e = ValueError ∨ write_error e = true).
Proof.
  intros Hex. revert w. induction ds as [|d ds IH]; intros w.
  { by apply Exists_nil in Hex. }
  simpl. unfold mbind, M_bind, bind.
  destruct (dump_helper_body_cases docs_dir d w)
    as [[w1 Hrun]|(e & w1 & Hrun & He)]; rewrite Hrun; [|eauto].
  apply Exists_cons in Hex as [Hnone|Hex]; [|by apply IH].
  rewrite dump_helper_body_None in Hrun by done. done.
Qed.

End Dump.

Section DumpClaims.
Context {C : Click} {P : Platform}.
Variable heap : obj_id → Command.
Implicit Types (t : tree) (w : World) (docs_dir : str).


(** C10.  A command without help text ([help] is [None]) makes the body
    of the loop raise [AttributeError] in the normalizer before anything
    is printed, made or written for that command.  When such a command is
    in the tree under the resolved root, [dumps] raises: it reports
    [Dumps command failed] with the text of the exception and raises the
    exception again, so the exit status is not 0.  (The exception is that
    [AttributeError], unless a command before it in the walk has already
    stopped the dump: with [ValueError] for a help text of empty lines, or
    with the error of a write that the file system refuses.) *)
Theorem dumps_fails_without_help
    t fuel (base_module base_command docs_path : str) module_ c w :
  import_module base_module = inr module_ →
  module_ base_command = Some (root t) →
  tree_ok heap t = true →
  height t ≤ fuel →
  c ∈ nodes t →
  help (heap c) = None →
  (∀ w0, (trim_docstring (help (heap c)) w0) = (Raised AttributeError, w0))
  ∧ (∀ helpdct w0, d_command helpdct = c →
       dump_helper_body heap docs_path helpdct w0 = (Raised AttributeError, w0))
  ∧ ∃ e w',
      dumps heap fuel base_module base_command docs_path w = (Raised e, w')
      ∧ (e = AttributeError ∨ e = ValueError ∨ write_error e = true)
      ∧ last (echoes (trace w')) = Some (u "Dumps command failed: " ++ exn_str e)
      ∧ exit_code (Raised e : result unit) ≠ 0%Z.
Proof.
  intros Himport Hattr Hok Hfuel Hc Hnone.
  split; [by rewrite Hnone|].
  split; [by intros d w0 <-; apply dump_helper_body_None|].
  unfold dumps. rewrite Himport, Hattr.
  unfold mbind at 1, M_bind at 1, bind at 1. unfold echo at 1, emit at 1.
  unfold try_except, dump_helper. rewrite recursive_help_tree by done.
  unfold mbind at 1, M_bind at 1, bind at 1.
  unfold mbind at 1, M_bind at 1, bind at 1.
  edestruct (for_each_bodies_raise heap docs_path (descriptors heap None t))
    as (e & w1 & -> & He).
  { apply Exists_exists. rewrite <- (descriptors_commands heap t None) in Hc.
    apply list_elem_of_fmap in Hc as (d & -> & Hd). eauto. }
  exists e. eexists. split; [reflexivity|]. split; [done|].
  split; [|by destruct e].
  simpl. rewrite echoes_app. simpl. by rewrite last_snoc.
Qed.

(** C2.  When the module cannot be imported, or is imported and has no
    attribute of the given name, [dumps] prints a message after its first
    line and returns: the exit status is 0, directories and files are as
    they were (the destination is not made), and the two messages
    differ. *)
Theorem dumps_resolution_failure
    fuel (base_module base_command docs_path : str) w :
  (∀ e, import_module base_module = inl e →
     dumps heap fuel base_module base_command docs_path w
     = (Returned tt,
        mkWorld (dirs w) (files w)
          (trace w
           ++ [EEcho (u "Creating a new documents from " ++ base_module ++ u "."
                      ++ base_command ++ u " into " ++ docs_path);
               EEcho (u "Could not find module: " ++ base_module
                      ++ u ". Error: " ++ exn_str e)])))
  ∧ (∀ module_, import_module base_module = inr module_ →
       module_ base_command = None →
       dumps heap fuel base_module base_command docs_path w
       = (Returned tt,
          mkWorld (dirs w) (files w)
            (trace w
             ++ [EEcho (u "Creating a new documents from " ++ base_module ++ u "."
                        ++ base_command ++ u " into " ++ docs_path);
                 EEcho (u "Could not find command " ++ base_command
                        ++ u " on module " ++ base_module)])))
  ∧ (∀ e, u "Could not find module: " ++ base_module ++ u ". Error: " ++ exn_str e
          ≠ u "Could not find command " ++ base_command ++ u " on module "
            ++ base_module)
  ∧ exit_code (Returned tt) = 0%Z.
Proof.
  split; [|split; [|split; [|done]]].
  - intros e He. unfold dumps. rewrite He.
    unfold mbind, M_bind, bind, echo, emit. simpl.
    by rewrite <- app_assoc.
  - intros module_ Hm Ha. unfold dumps. rewrite Hm, Ha.
    unfold mbind, M_bind, bind, echo, emit. simpl.
    by rewrite <- app_assoc.
  - intros e. vm_compute (u "Could not find module: ").
    vm_compute (u "Could not find command "). simpl. discriminate.
Qed.

End DumpClaims.








(** A name with a [/] in it: the document would lie in a directory
    under the destination that nobody makes, and [open] raises after the
    destination was made. *)
Example dump_helper_slash_in_name :
  md_file_path Sample.slashed_heap (u "docs")
    (describe Sample.slashed_heap 0 None (mkContext 0 (u "a/b") None))
  = u "/home/user/docs/a/b.md"
  ∧ (dump_helper Sample.slashed_heap 1 0 (u "docs") empty_world).1
    = Raised FileNotFoundError
  ∧ writes (trace (dump_helper Sample.slashed_heap 1 0 (u "docs") empty_world).2)
    = []
  ∧ mkdirs (trace (dump_helper Sample.slashed_heap 1 0 (u "docs") empty_world).2)
    = [u "docs"].
Proof. repeat split; by_evaluation. Qed.

(** A name that is an absolute path: [joinpath] drops the destination,
    and the document is written where the name says, outside the
    destination. *)
Example dump_helper_absolute_name :
  let w := mkWorld {[u "/etc"]} ∅ [] in
  let run := dump_helper (Sample.named Sample.rooted_name) 1 0 (u "docs") w in
  run.1 = Returned tt
  ∧ (writes (trace run.2)).*1 = [u "/etc/motd.md"]
  ∧ directory_of (u "/etc/motd.md") = u "/etc"
  ∧ absolute (u "docs") = u "/home/user/docs".
Proof. repeat split; by_evaluation. Qed.

(** Names that the platform does not take: with a NUL the path cannot be
    passed to the operating system, and a name of 300 letters is too long
    for the file system.  [open] raises, and nothing is written. *)
Example dump_helper_refused_names :
  let run n := dump_helper (Sample.named n) 1 0 (u "docs") empty_world in
  (run Sample.nul_name).1 = Raised PathValueError
  ∧ writes (trace (run Sample.nul_name).2) = []
  ∧ (run Sample.long_name).1 = Raised OSError
  ∧ writes (trace (run Sample.long_name).2) = []
  ∧ mkdirs (trace (run Sample.long_name).2) = [u "docs"].
Proof. repeat split; by_evaluation. Qed.

(** A destination whose path is that of a regular file: [exists] is
    true, no directory is made, and [open] finds a file in the way. *)
Example dump_helper_destination_is_file :
  let w := mkWorld {[u "/home/user"]} {[u "/home/user/docs" := u "text"]} [] in
  let run := dump_helper Sample.app_heap 3 0 (u "docs") w in
  run.1 = Raised NotADirectoryError
  ∧ writes (trace run.2) = []
  ∧ mkdirs (trace run.2) = [].
Proof. repeat split; by_evaluation. Qed.

Lemma dumps_fails_without_help_witness :
  (∀ helpdct w0, d_command helpdct = 3 →
     dump_helper_body Sample.silent_heap (u "docs") helpdct w0
     = (Raised AttributeError, w0))
  ∧ ∃ e w',
      dumps Sample.silent_heap 3 (u "app") (u "cli") (u "docs") empty_world
      = (Raised e, w')
      ∧ (e = AttributeError ∨ e = ValueError ∨ write_error e = true)
      ∧ last (echoes (trace w')) = Some (u "Dumps command failed: " ++ exn_str e)
      ∧ exit_code (Raised e : result unit) ≠ 0%Z.
Proof.
  eapply (dumps_fails_without_help Sample.silent_heap Sample.app_tree 3
            (u "app") (u "cli") (u "docs") _ 3 empty_world).
  - reflexivity.
  - reflexivity.
  - by_evaluation.
  - vm_compute. lia.
  - by_evaluation.
  - reflexivity.
Defined.

Lemma dumps_resolution_failure_witness :
  dumps Sample.own_heap 0 (u "nope") (u "cli") (u "docs") empty_world
  = (Returned tt,
     mkWorld ∅ ∅
       [EEcho (u "Creating a new documents from nope.cli into docs");
        EEcho (u "Could not find module: nope. Error: No module named 'nope'")])
  ∧ dumps Sample.own_heap 0 (u "app") (u "clx") (u "docs") empty_world
    = (Returned tt,
       mkWorld ∅ ∅
         [EEcho (u "Creating a new documents from app.clx into docs");
          EEcho (u "Could not find command clx on module app")]).
Proof.
  split.
  - etransitivity.
    + apply (proj1 (dumps_resolution_failure Sample.own_heap 0
                      (u "nope") (u "cli") (u "docs") empty_world)
               (ImportFailure (u "No module named 'nope'"))).
      reflexivity.
    + by_evaluation.
  - etransitivity.
    + eapply (proj1 (proj2 (dumps_resolution_failure Sample.own_heap 0
                              (u "app") (u "clx") (u "docs") empty_world)));
        reflexivity.
    + by_evaluation.
Defined.

(** * Further properties of the code *)

(** ** The normalizer *)

Section NormalizerMore.
Implicit Types (data line : str) (lines : list str) (w : World) (c : char).

Lemma join_LF_boundaries lines c :
  Forall break_free lines → c ∈ join LF lines → is_linebreak c = true →
  c = 10%N.
Proof.
  induction 1 as [|l ls Hl _ IH]; [by intros ?%elem_of_nil|].
  assert (c ∈ l → is_linebreak c = true → c = 10%N) as Hline.
  { intros Hin Hc. rewrite (proj1 (Forall_forall _ _) Hl c Hin) in Hc. done. }
  destruct ls as [|l' ls']; [exact Hline|].
  change (join LF (l :: l' :: ls')) with (l ++ 10%N :: join LF (l' :: ls')).
  rewrite elem_of_app, elem_of_cons. intros [?|[->|?]] Hc; auto.
Qed.

(** X1.  [trim_empty_lines] returns on every string, and what it returns
    it returns unchanged when applied again. *)
Theorem trim_empty_lines_idempotent data :
  ∃ out, trim_empty_lines (Some data) = Returned out
         ∧ trim_empty_lines (Some out) = Returned out.
Proof.
  eexists. split; [reflexivity|]. unfold trim_empty_lines.
  rewrite splitlines_trimmed. f_equal. f_equal. apply strip_empty_lines_id.
  by destruct (strip_empty_lines_spec (splitlines data))
    as (_ & _ & _ & _ & _ & ?).
Qed.

(** X2.  In the text [trim_docstring] returns the only line boundary is
    LF: CR LF, CR, FF and the other boundaries of [splitlines] between
    the lines of the input are replaced by it. *)
Theorem trim_docstring_only_LF data :
  (∃ line, line ∈ splitlines data ∧ line ≠ []) →
  ∃ out, (∀ w, (trim_docstring (Some data) w).1 = Returned out)
         ∧ (∀ c, c ∈ out → is_linebreak c = true → c = 10%N).
Proof.
  intros (l & Hl & Hne).
  destruct (common_indentation_nonempty (strip_empty_lines (splitlines data)) l)
    as [ci Hci]; [by apply strip_empty_lines_keeps|done|].
  exists (join LF (drop ci <$> strip_empty_lines (splitlines data))). split.
  - intros w. rewrite trim_docstring_run. simpl. by rewrite Hci.
  - intros c. apply join_LF_boundaries.
    apply Forall_fmap. eapply Forall_impl.
    + apply strip_empty_lines_Forall, splitlines_break_free.
    + intros l'. apply Forall_drop.
Qed.

(** X3.  A text that is already normal comes back unchanged: lines
    without boundaries joined by LF, the first and the last not empty,
    and a non-empty one without indentation. *)
Theorem trim_docstring_fixed_point lines :
  Forall break_free lines → no_outer_empty_line lines →
  common_indentation lines = Returned 0 →
  ∀ w, (trim_docstring (Some (join LF lines)) w).1 = Returned (join LF lines).
Proof.
  intros Hbf Hno Hci w. rewrite trim_docstring_run. simpl.
  rewrite splitlines_join by (by destruct Hno).
  rewrite strip_empty_lines_id, Hci by done. simpl. do 2 f_equal.
  clear. induction lines as [|l ls IH]; [done|].
  rewrite fmap_cons, drop_0. by f_equal.
Qed.

End NormalizerMore.

Lemma trim_docstring_only_LF_witness :
  ∃ out, (∀ w, (trim_docstring (Some Sample.crlf) w).1 = Returned out)
         ∧ (∀ c, c ∈ out → is_linebreak c = true → c = 10%N).
Proof.
  apply (trim_docstring_only_LF Sample.crlf).
  exists (u "  one"). split; by_evaluation.
Defined.

Lemma trim_docstring_fixed_point_witness :
  (trim_docstring (Some (u "one" ++ LF ++ LF ++ u "  two")) empty_world).1
  = Returned (u "one" ++ LF ++ LF ++ u "  two").
Proof.
  apply (trim_docstring_fixed_point [u "one"; []; u "  two"]).
  - by_evaluation.
  - split; by_evaluation.
  - by_evaluation.
Defined.

(** ** The tree walker *)

Section WalkerMore.
Context `{Click}.
Variable heap : obj_id → Command.
Implicit Types (cmd sub : obj_id) (parent : option Ctx) (fuel : nat).

Lemma foldl_walk_step_stopped (walk : obj_id → option Ctx → list Descriptor * bool)
    ctx acc (l : list obj_id) :
  foldl (walk_step walk ctx) (acc, false) l = (acc, false).
Proof. induction l as [|x l IH]; [done|]. simpl. exact IH. Qed.

Lemma foldl_walk_step_unfinished
    (walk : obj_id → option Ctx → list Descriptor * bool) ctx (l : list obj_id) sub :
  sub ∈ l → (∀ parent, (walk sub parent).2 = false) →
  ∀ acc, (foldl (walk_step walk ctx) acc l).2 = false.
Proof.
  intros Hin Hsub. induction l as [|x l IH]; [by apply elem_of_nil in Hin|].
  intros [ds [|]]; simpl.
  - unfold walk_step at 2. simpl.
    apply elem_of_cons in Hin as [<-|Hin]; [|by apply IH].
    rewrite Hsub. by rewrite foldl_walk_step_stopped.
  - unfold walk_step at 2. simpl. by rewrite foldl_walk_step_stopped.
Qed.

(** A command one of whose sub-commands is never walked to the end is
    never walked to the end. *)
Lemma recursive_help_unfinished_step cmd sub :
  sub_command_of heap cmd sub →
  (∀ fuel parent, (recursive_help heap fuel sub parent).2 = false) →
  ∀ fuel parent, (recursive_help heap fuel cmd parent).2 = false.
Proof.
  intros Hsub Hnever [|fuel] parent; [done|].
  rewrite recursive_help_S. cbv zeta. simpl.
  by eapply foldl_walk_step_unfinished.
Qed.

Lemma recursive_help_on_cycle cmd :
  tc (sub_command_of heap) cmd cmd →
  ∀ fuel parent, (recursive_help heap fuel cmd parent).2 = false.
Proof.
  intros Hcycle fuel. revert cmd Hcycle.
  induction fuel as [|fuel IH]; intros cmd Hcycle parent; [done|].
  assert (∃ sub, sub_command_of heap cmd sub ∧ tc (sub_command_of heap) sub sub)
    as (sub & Hsub & Hsubcycle).
  { inversion Hcycle as [? ? Hstep|? sub ? Hstep Hback]; subst.
    - exists cmd. by split.
    - exists sub. split; [done|].
      eapply tc_r; [exact Hback|exact Hstep]. }
  rewrite recursive_help_S. cbv zeta. simpl.
  eapply foldl_walk_step_unfinished; [exact Hsub|].
  intros p. by apply IH.
Qed.

(** X4.  When a group that is a sub-command of itself, directly or
    through other groups, can be reached from the root, the walk comes to
    its end within no number of nested calls, and [dump_helper] does not
    return. *)
Theorem recursive_help_cycle_never_ends base_command cmd :
  rtc (sub_command_of heap) base_command cmd →
  tc (sub_command_of heap) cmd cmd →
  ∀ fuel,
    (∀ parent, (recursive_help heap fuel base_command parent).2 = false)
    ∧ ∀ `{Platform} docs_dir w,
        (dump_helper heap fuel base_command docs_dir w).1 ≠ Returned tt.
Proof.
  intros Hreach Hcycle.
  assert (∀ fuel parent, (recursive_help heap fuel base_command parent).2 = false)
    as Hnever.
  { induction Hreach as [cmd|x y z Hstep _ IH].
    - by apply recursive_help_on_cycle.
    - eapply recursive_help_unfinished_step; [exact Hstep|]. by apply IH. }
  intros fuel. split; [apply Hnever|]. intros P docs_dir w.
  unfold dump_helper. rewrite Hnever.
  unfold mbind, M_bind, bind.
  by destruct (for_each _ _ w) as [[[]| |] w'].
Qed.

Lemma foldl_walk_step_finished
    (walk walk' : obj_id → option Ctx → list Descriptor * bool) ctx
    (l : list obj_id) :
  (∀ sub parent, (walk sub parent).2 = true → walk' sub parent = walk sub parent) →
  ∀ acc, (foldl (walk_step walk ctx) acc l).2 = true →
         foldl (walk_step walk' ctx) acc l = foldl (walk_step walk ctx) acc l.
Proof.
  intros Hsame. induction l as [|x l IH]; [done|].
  intros [ds [|]]; cbn [foldl].
  - change (walk_step walk ctx (ds, true) x)
      with (ds ++ (walk x (Some ctx)).1, (walk x (Some ctx)).2).
    change (walk_step walk' ctx (ds, true) x)
      with (ds ++ (walk' x (Some ctx)).1, (walk' x (Some ctx)).2).
    destruct (walk x (Some ctx)) as [ds' [|]] eqn:Hw.
    + rewrite (Hsame x (Some ctx)) by (by rewrite Hw). rewrite Hw. apply IH.
    + cbn [fst snd]. by rewrite foldl_walk_step_stopped.
  - change (walk_step walk ctx (ds, false) x) with (ds, false).
    by rewrite foldl_walk_step_stopped.
Qed.

(** X5.  A walk that comes to its end within some number of nested
    calls yields the same dictionaries within any larger number. *)
Theorem recursive_help_more_fuel fuel fuel' cmd parent :
  fuel ≤ fuel' →
  (recursive_help heap fuel cmd parent).2 = true →
  recursive_help heap fuel' cmd parent = recursive_help heap fuel cmd parent.
Proof.
  revert fuel' cmd parent.
  induction fuel as [|fuel IH]; intros fuel' cmd parent Hle; [done|].
  destruct fuel' as [|fuel']; [lia|].
  rewrite !recursive_help_S. cbv zeta. simpl. intros Hend.
  rewrite (foldl_walk_step_finished (recursive_help heap fuel)); [done| |done].
  intros sub p. apply IH. lia.
Qed.

End WalkerMore.

Lemma recursive_help_cycle_never_ends_witness :
  sub_command_of Sample.own_heap 0 0
  ∧ ∀ fuel,
      (∀ parent, (recursive_help Sample.own_heap fuel 0 parent).2 = false)
      ∧ ∀ `{Platform} docs_dir w,
          (dump_helper Sample.own_heap fuel 0 docs_dir w).1 ≠ Returned tt.
Proof.
  assert (sub_command_of Sample.own_heap 0 0) as Hself
    by (unfold sub_command_of; by_evaluation).
  split; [exact Hself|].
  apply (recursive_help_cycle_never_ends Sample.own_heap 0 0).
  - reflexivity.
  - by apply tc_once.
Defined.

Lemma recursive_help_more_fuel_witness :
  recursive_help Sample.app_heap 7 0 None = recursive_help Sample.app_heap 3 0 None.
Proof.
  apply (recursive_help_more_fuel Sample.app_heap 3 7 0 None).
  - lia.
  - by_evaluation.
Defined.

(** ** The dump: what is printed, made and written *)






Section DumpMore.
Context {C : Click} {P : Platform}.
Variable heap : obj_id → Command.
Implicit Types (helpdct : Descriptor) (w : World) (docs_dir : str) (t : tree).



End DumpMore.

Section DumpMoreClaims.
Context {C : Click} {P : Platform}.
Variable heap : obj_id → Command.
Implicit Types (helpdct : Descriptor) (w : World) (docs_dir : str) (t : tree).







End DumpMoreClaims.

Section DriverMore.
Context {C : Click} {P : Platform}.
Variable heap : obj_id → Command.
Implicit Types (w : World) (t : tree) (base_module base_command docs_path : str).



(** X11.  Names that differ only in having a space where the other has
    a hyphen get the same file name, so the documents of two such
    commands go to one file. *)
Theorem md_file_name_hyphens (n1 n2 : str) :
  same_up_to_hyphens n1 n2 → md_file_name n1 = md_file_name n2.
Proof.
  intros Hsame. unfold md_file_name. do 2 f_equal.
  induction Hsame as [|a b n1 n2 Hab _ IH]; [done|].
  unfold replace in *. rewrite !fmap_cons, IH. f_equal.
  destruct Hab as [->|[[-> | ->] [-> | ->]]]; done.
Qed.

(** X12.  The bullet of a parameter shows its spellings joined with
    [", "], as long as no spelling holds a line boundary and the last one
    is not empty: joining them with LF and splitting the lines gives them
    back. *)
Theorem format_option_spellings (p : Param) :
  Forall break_free (p_opts p) → last (p_opts p) ≠ Some [] →
  splitlines (o_usage (opt_info p)) = p_opts p
  ∧ ∃ rest, format_option (opt_info p)
            = u "* `" ++ join (u ", ") (p_opts p) ++ u "`" ++ rest.
Proof.
  intros Hbf Hlast. pose proof (opt_info_spellings p Hbf Hlast) as Hsplit.
  split; [done|]. unfold format_option. rewrite Hsplit.
  destruct (if decide _ then _ else _); eexists.
  - rewrite <- !(assoc_L (++)). reflexivity.
  - reflexivity.
Qed.

End DriverMore.

(** ** The further properties on the samples *)






Lemma md_file_name_hyphens_witness :
  md_file_name (u "Say Hello") = md_file_name (u "Say-Hello").
Proof.
  apply (md_file_name_hyphens (u "Say Hello") (u "Say-Hello")).
  vm_compute.
  repeat (constructor;
          [first [by left | right; split; [by left|by right]]|]).
  constructor.
Defined.

Lemma format_option_spellings_witness :
  ∃ rest,
    format_option (opt_info (Sample.option_ "dir" ["-d"; "--dir"]%string false
                               None None))
    = u "* `" ++ join (u ", ") [u "-d"; u "--dir"] ++ u "`" ++ rest.
Proof.
  apply (format_option_spellings
           (Sample.option_ "dir" ["-d"; "--dir"]%string false None None)).
  - by_evaluation.
  - by_evaluation.
Defined.

(** ** What the dump leaves alone *)

Section Frame.
Context {C : Click} {P : Platform}.
Variable heap : obj_id → Command.
Implicit Types (w : World) (docs_dir : str).

Lemma keeps_refl docs_dir w : keeps docs_dir w w.
Proof. repeat split; [done..|]. exists []. by rewrite app_nil_r. Qed.

Lemma keeps_trans docs_dir w1 w2 w3 :
  keeps docs_dir w1 w2 → keeps docs_dir w2 w3 → keeps docs_dir w1 w3.
Proof.
  intros (Hd1 & Hf1 & Hp1 & tr1 & Ht1) (Hd2 & Hf2 & Hp2 & tr2 & Ht2).
  split; [set_solver|]. split; [set_solver|]. split.
  - intros p Hp. by rewrite Hp2, Hp1.
  - exists (tr1 ++ tr2). by rewrite Ht2, Ht1, <- app_assoc.
Qed.

Lemma keeps_events docs_dir w (D : gset str) tr :
  dirs w ⊆ D → keeps docs_dir w (mkWorld D (files w) (trace w ++ tr)).
Proof. intros HD. repeat split; [done..|]. by eexists. Qed.

Lemma keeps_document docs_dir w (D : gset str) tr n text :
  dirs w ⊆ D →
  keeps docs_dir w
    (mkWorld D (<[absolute (joinpath docs_dir (md_file_name n)) := text]> (files w))
       (trace w ++ tr)).
Proof.
  intros HD. split; [done|]. split; [|split].
  - apply dom_insert_subseteq.
  - intros p Hp. simpl. apply lookup_insert_ne. intros <-. by apply (Hp n).
  - by eexists.
Qed.

Lemma mkdir_keeps docs_dir (p : str) w : keeps docs_dir w (mkdir p w).2.
Proof.
  destruct (mkdir_cases p w) as (r & w' & -> & _ & Hd & Hf & Ht). simpl.
  split; [done|]. rewrite Hf. split; [done|]. split; [done|].
  destruct Ht as [->| ->]; [|by eexists]. exists []. by rewrite app_nil_r.
Qed.

Lemma write_file_keeps docs_dir n text w :
  keeps docs_dir w
    (write_file (absolute (joinpath docs_dir (md_file_name n))) text w).2.
Proof.
  destruct (write_file_cases (absolute (joinpath docs_dir (md_file_name n))) text w)
    as [(e & -> & _)| ->]; simpl; [apply keeps_refl|by apply keeps_document].
Qed.

Lemma dump_helper_body_keeps docs_dir helpdct w :
  keeps docs_dir w (dump_helper_body heap docs_dir helpdct w).2.
Proof.
  unfold dump_helper_body, mbind, M_bind, bind.
  destruct (help (heap (d_command helpdct))) as [data|].
  2:{ rewrite trim_docstring_None. apply keeps_refl. }
  rewrite trim_docstring_run.
  destruct (common_indentation _) as [ci|e|]; simpl;
    [|by apply keeps_events..].
  unfold path_exists, ret, md_file_path. simpl.
  case_bool_decide; simpl.
  - eapply keeps_trans; [|apply write_file_keeps]. by apply keeps_events.
  - match goal with
    | |- context [mkdir docs_dir ?w0] =>
        pose proof (mkdir_keeps docs_dir docs_dir w0) as Hmade;
        destruct (mkdir docs_dir w0) as [[[]| |] w1]; simpl in *
    end.
    + eapply keeps_trans; [|apply write_file_keeps].
      eapply keeps_trans; [|exact Hmade]. by apply keeps_events.
    + eapply keeps_trans; [|exact Hmade]. by apply keeps_events.
    + eapply keeps_trans; [|exact Hmade]. by apply keeps_events.
Qed.

Lemma for_each_keeps docs_dir (ds : list Descriptor) w :
  keeps docs_dir w (for_each ds (dump_helper_body heap docs_dir) w).2.
Proof.
  revert w. induction ds as [|d ds IH]; intros w; [apply keeps_refl|].
  simpl. unfold mbind, M_bind, bind.
  pose proof (dump_helper_body_keeps docs_dir d w) as Hd.
  destruct (dump_helper_body heap docs_dir d w) as [[[]| |] w1]; simpl in Hd;
    [|done..].
  eapply keeps_trans; [exact Hd|apply IH].
Qed.

End Frame.

(** X13.  Whatever the commands are and however the dump ends (it
    returns, it raises, the walk has no end), it removes nothing: every
    directory and every file that was there is there afterwards, a file
    whose path is not that of a document under the destination holds what
    it held, and the events so far stay as they were. *)
Theorem dump_helper_removes_nothing `{Click} `{Platform}
    (heap : obj_id → Command) fuel base_command docs_dir w :
  dirs w ⊆ dirs (dump_helper heap fuel base_command docs_dir w).2
  ∧ dom (files w) ⊆ dom (files (dump_helper heap fuel base_command docs_dir w).2)
  ∧ (∀ p, (∀ n, p ≠ absolute (joinpath docs_dir (md_file_name n))) →
          files (dump_helper heap fuel base_command docs_dir w).2 !! p
          = files w !! p)
  ∧ ∃ tr, trace (dump_helper heap fuel base_command docs_dir w).2 = trace w ++ tr.
Proof.
  unfold dump_helper, mbind, M_bind, bind.
  pose proof (for_each_keeps heap docs_dir
                (recursive_help heap fuel base_command None).1 w) as Hkeeps.
  destruct (for_each _ _ w) as [[[]| |] w']; [|exact Hkeeps..].
  by destruct (recursive_help heap fuel base_command None).2.
Qed.
